(** * Content Entry Store: the CMS query and mutation layer

    A shallow embedding of the CMS data-access module (getCmsCollection,
    getCmsEntry, getCmsEntryById, createCmsEntry, updateCmsEntry,
    deleteCmsEntry, buildCmsRelationsQuery) and of the part of the store
    those functions talk to.

    Every [await db. ...] of the source is one [Call] node of a program
    tree; [run] executes a tree against a database, and an environment says
    what happens at each suspension point: what concurrent requests did to
    the tables in the meantime, whether the store call fails, and which id
    and timestamp the store generates. *)

From Stdlib Require Import ZArith.
From stdpp Require Import gmap strings list sorting.

Local Open Scope string_scope.
Local Open Scope list_scope.
Local Open Scope Z_scope.

(** ** Data model *)

(** CMS_ENTRY_STATUS: the three stored status values. *)
Inductive CmsStatus := DRAFT | PUBLISHED | ARCHIVED.

(** CmsEntryStatus: CMS_ENTRY_STATUS extended with the query-only 'all'. *)
Inductive CmsEntryStatus := Stored (s : CmsStatus) | All.

Global Instance CmsStatus_eq_dec : EqDecision CmsStatus.
Proof. solve_decision. Defined.

Global Instance CmsEntryStatus_eq_dec : EqDecision CmsEntryStatus.
Proof. solve_decision. Defined.

(** The content and fields columns are JSON kept in text columns; the
    module never looks inside them, so the serialized text stands for them. *)
Definition Json := string.

(** Timestamps are integer columns (seconds since the epoch). *)
Definition Timestamp := Z.

(** A row of cmsEntryTable.

    Modelled from the spec: the table declaration (db/schema) is not among
    the sources; the columns are those of the spec's Entry. *)
Record CmsEntry := mkEntry {
  entry_id : string;
  entry_collection : string;
  entry_slug : string;
  entry_title : string;
  entry_content : Json;
  entry_fields : Json;
  entry_status : CmsStatus;
  entry_createdBy : string;
  entry_updatedBy : option string;
  entry_createdAt : Timestamp;
  entry_updatedAt : Timestamp;
  entry_publishedAt : option Timestamp
}.

(** A row of cmsEntryMediaTable (position and caption are nullable). *)
Record CmsEntryMedia := mkEntryMedia {
  em_id : string;
  em_entryId : string;
  em_mediaId : string;
  em_position : option Z;
  em_caption : option string
}.

(** A media asset, owned by the media subsystem. *)
Record MediaAsset := mkMedia {
  media_id : string;
  media_fileName : string;
  media_mimeType : string;
  media_sizeInBytes : Z;
  media_bucketKey : string;
  media_width : option Z;
  media_height : option Z;
  media_alt : option string
}.

(** Modelled from the spec: the user table is not among the sources; a user
    has the public profile columns and a credential column. *)
Record User := mkUser {
  user_id : string;
  user_firstName : option string;
  user_lastName : option string;
  user_email : option string;
  user_avatar : option string;
  user_passwordHash : option string
}.

Inductive UserColumn :=
  ColId | ColFirstName | ColLastName | ColEmail | ColAvatar | ColPasswordHash.

Global Instance UserColumn_eq_dec : EqDecision UserColumn.
Proof. solve_decision. Defined.

Definition user_column (c : UserColumn) (u : User) : option string :=
  match c with
  | ColId => Some (user_id u)
  | ColFirstName => user_firstName u
  | ColLastName => user_lastName u
  | ColEmail => user_email u
  | ColAvatar => user_avatar u
  | ColPasswordHash => user_passwordHash u
  end.

Record Db := mkDb {
  cmsEntryTable : list CmsEntry;
  cmsEntryMediaTable : list CmsEntryMedia;
  cmsMediaTable : list MediaAsset;
  userTable : list User
}.

(** ** Collection registry (cms.config) *)

Record CmsCollection := mkCollection {
  coll_slug : string;
  label_singular : string;
  label_plural : string
}.

Record CmsConfig := mkConfig { collections : gmap string CmsCollection }.

Definition blogCollection : CmsCollection :=
  {| coll_slug := "blog"; label_singular := "Blog"; label_plural := "Blogs" |}.

Definition cmsConfig : CmsConfig :=
  {| collections := {[ "blog" := blogCollection ]} |}.

(** The value of [cmsConfig.collections[key]].  The registry is an object
    literal, so besides its own keys it answers for the property names that
    every object inherits from Object.prototype; such a value is truthy and
    has no slug. *)
Inductive Lookup := Own (c : CmsCollection) | Inherited.

Definition object_prototype_keys : list string :=
  ["constructor"; "__defineGetter__"; "__defineSetter__"; "hasOwnProperty";
   "__lookupGetter__"; "__lookupSetter__"; "isPrototypeOf";
   "propertyIsEnumerable"; "toString"; "valueOf"; "__proto__";
   "toLocaleString"].

(** [collections[key]]: [None] is undefined. *)
Definition resolve (cfg : CmsConfig) (key : string) : option Lookup :=
  match collections cfg !! key with
  | Some c => Some (Own c)
  | None =>
      if bool_decide (key ∈ object_prototype_keys) then Some Inherited else None
  end.

(** [collection.slug]: undefined on an inherited value. *)
Definition slug_of (v : Lookup) : option string :=
  match v with
  | Own c => Some (coll_slug c)
  | Inherited => None
  end.

(** [collection.slug] inside a template string. *)
Definition slug_text (v : Lookup) : string := default "undefined" (slug_of v).

(** A number of the caller, as far as a query depends on it: an integer, a
    value that is not an integer (a fraction or an infinity, with its sign),
    or NaN. *)
Inductive JsNumber := Int (z : Z) | NonInt (negative : bool) | NaN.

(** ** Queries as the source builds them *)

(** CmsIncludeRelations: both flags are optional. *)
Record CmsIncludeRelations := mkInclude {
  inc_createdByUser : option bool;
  inc_media : option bool
}.

Inductive MediaOrder := AscPosition | DescPosition.

Record CreatedByUserRel := mkUserRel { rel_columns : list UserColumn }.

Record EntryMediaRel := mkMediaRel {
  rel_orderBy : list MediaOrder;
  rel_with_media : bool
}.

(** The object that buildCmsRelationsQuery returns: a key is present or not. *)
Record Relations := mkRelations {
  rel_createdByUser : option CreatedByUserRel;
  rel_entryMedia : option EntryMediaRel
}.

(** JS truthiness of an optional boolean flag. *)
Definition truthy (b : option bool) : bool := default false b.

Definition flag (f : CmsIncludeRelations -> option bool)
    (includeRelations : option CmsIncludeRelations) : bool :=
  match includeRelations with
  | Some inc => truthy (f inc)
  | None => false
  end.

Definition buildCmsRelationsQuery
    (includeRelations : option CmsIncludeRelations) : Relations :=
  {| rel_createdByUser :=
       if flag inc_createdByUser includeRelations
       then Some {| rel_columns :=
                      [ColId; ColFirstName; ColLastName; ColEmail; ColAvatar] |}
       else None;
     rel_entryMedia :=
       if flag inc_media includeRelations
       then Some {| rel_orderBy := [AscPosition]; rel_with_media := true |}
       else None |}.

(** eq(column, value) on cmsEntryTable.  The collection is compared with
    [collection.slug], which may be undefined. *)
Inductive Cond :=
| EqId (v : string)
| EqCollection (v : option string)
| EqSlug (v : string)
| EqStatus (v : CmsStatus).

Inductive EntryOrder := DescCreatedAt | AscCreatedAt.

Definition eval_cond (c : Cond) (e : CmsEntry) : bool :=
  match c with
  | EqId v => bool_decide (entry_id e = v)
  | EqCollection v => bool_decide (Some (entry_collection e) = v)
  | EqSlug v => bool_decide (entry_slug e = v)
  | EqStatus v => bool_decide (entry_status e = v)
  end.

(** and(...conditions) *)
Definition and_ (conds : list Cond) (e : CmsEntry) : bool :=
  forallb (fun c => eval_cond c e) conds.

Record FindConfig := mkFind {
  find_where : list Cond;
  find_orderBy : list EntryOrder;
  find_limit : option JsNumber;
  find_offset : option JsNumber;
  find_with : Relations
}.

(** The column values of db.insert(cmsEntryTable).values({...}). *)
Record InsertValues := mkInsert {
  iv_collection : option string;
  iv_slug : string;
  iv_title : string;
  iv_content : Json;
  iv_fields : Json;
  iv_status : CmsStatus;
  iv_createdBy : string
}.

(** The object of .set({...}): the ORM writes the columns whose value is not
    undefined and leaves the others alone. *)
Record SetValues := mkSet {
  sv_slug : option string;
  sv_title : option string;
  sv_content : option Json;
  sv_fields : option Json;
  sv_status : option CmsStatus
}.

(** ** Query results *)

Definition UserProfile := list (UserColumn * option string).

Record MediaItem := mkItem {
  item_assoc : CmsEntryMedia;
  item_media : option MediaAsset
}.

(** GetCmsCollectionResult: the entry and the relations that were asked for. *)
Record EntryResult := mkResult {
  res_entry : CmsEntry;
  res_createdByUser : option (option UserProfile);
  res_entryMedia : option (list MediaItem)
}.

(** ** The store

    What the ORM calls of the module do to the tables. *)

(** desc(createdAt): newest first. *)
Definition created_desc (a b : CmsEntry) : Prop :=
  entry_createdAt b ≤ entry_createdAt a.

Definition created_asc (a b : CmsEntry) : Prop :=
  entry_createdAt a ≤ entry_createdAt b.

(** Ascending order on a nullable integer column: NULL sorts first. *)
Definition null_first_le (x y : option Z) : Prop :=
  match x, y with
  | None, _ => True
  | Some _, None => False
  | Some a, Some b => a ≤ b
  end.

Definition position_asc (a b : CmsEntryMedia) : Prop :=
  null_first_le (em_position a) (em_position b).

Definition position_desc (a b : CmsEntryMedia) : Prop :=
  null_first_le (em_position b) (em_position a).

Global Instance created_desc_dec : RelDecision created_desc.
Proof. intros a b. unfold created_desc. apply _. Defined.

Global Instance created_asc_dec : RelDecision created_asc.
Proof. intros a b. unfold created_asc. apply _. Defined.

Global Instance null_first_le_dec : RelDecision null_first_le.
Proof. intros [a|] [b|]; simpl; apply _. Defined.

Global Instance position_asc_dec : RelDecision position_asc.
Proof. intros a b. unfold position_asc. apply _. Defined.

Global Instance position_desc_dec : RelDecision position_desc.
Proof. intros a b. unfold position_desc. apply _. Defined.

Definition order_entries (o : list EntryOrder) (l : list CmsEntry) : list CmsEntry :=
  match o with
  | [] => l
  | DescCreatedAt :: _ => merge_sort created_desc l
  | AscCreatedAt :: _ => merge_sort created_asc l
  end.

Definition order_media (o : list MediaOrder) (l : list CmsEntryMedia) : list CmsEntryMedia :=
  match o with
  | [] => l
  | AscPosition :: _ => merge_sort position_asc l
  | DescPosition :: _ => merge_sort position_desc l
  end.

(** Modelled from the spec: the ORM and the database are not among the
    sources.  The query builder writes a LIMIT clause for a limit that is
    [>= 0] and an OFFSET clause for an offset that is truthy; the database
    wants 64-bit integers in both, reads a negative offset as 0, and
    refuses an OFFSET that has no LIMIT before it. *)
Definition js_ge0 (x : JsNumber) : bool :=
  match x with
  | Int z => 0 <=? z
  | NonInt negative => negb negative
  | NaN => false
  end.

Definition js_truthy (x : JsNumber) : bool :=
  match x with
  | Int z => negb (z =? 0)
  | NonInt _ => true
  | NaN => false
  end.

Definition limit_clause (limit : option JsNumber) : option JsNumber :=
  match limit with
  | Some x => if js_ge0 x then Some x else None
  | None => None
  end.

Definition offset_clause (offset : option JsNumber) : option JsNumber :=
  match offset with
  | Some x => if js_truthy x then Some x else None
  | None => None
  end.

Definition sql_integer (x : JsNumber) : option Z :=
  match x with
  | Int z => if (- 2 ^ 63 <=? z) && (z <? 2 ^ 63) then Some z else None
  | _ => None
  end.

(** OFFSET then LIMIT; [None] when the database refuses the query. *)
Definition paginate {A} (limit offset : option JsNumber) (l : list A) :
    option (list A) :=
  match limit_clause limit, offset_clause offset with
  | None, None => Some l
  | None, Some _ => None
  | Some n, None =>
      match sql_integer n with
      | Some k => Some (take (Z.to_nat k) l)
      | None => None
      end
  | Some n, Some o =>
      match sql_integer n, sql_integer o with
      | Some k, Some skip => Some (take (Z.to_nat k) (drop (Z.to_nat skip) l))
      | _, _ => None
      end
  end.

Definition project_user (cols : list UserColumn) (u : User) : UserProfile :=
  map (fun c => (c, user_column c u)) cols.

Definition find_user (uid : string) (db : Db) : option User :=
  head (filter (fun u => user_id u = uid) (userTable db)).

Definition find_media (mid : string) (db : Db) : option MediaAsset :=
  head (filter (fun m => media_id m = mid) (cmsMediaTable db)).

Definition media_of_entry (eid : string) (db : Db) : list CmsEntryMedia :=
  filter (fun a => em_entryId a = eid) (cmsEntryMediaTable db).

Definition load_entryMedia (r : EntryMediaRel) (db : Db) (e : CmsEntry) : list MediaItem :=
  map (fun a => {| item_assoc := a;
                   item_media := if rel_with_media r
                                 then find_media (em_mediaId a) db else None |})
      (order_media (rel_orderBy r) (media_of_entry (entry_id e) db)).

(** The [with] clause of a relational query. *)
Definition load_relations (w : Relations) (db : Db) (e : CmsEntry) : EntryResult :=
  {| res_entry := e;
     res_createdByUser :=
       (fun r => project_user (rel_columns r) <$> find_user (entry_createdBy e) db)
         <$> rel_createdByUser w;
     res_entryMedia := (fun r => load_entryMedia r db e) <$> rel_entryMedia w |}.

Definition matching (conds : list Cond) (db : Db) : list CmsEntry :=
  filter (fun e => and_ conds e = true) (cmsEntryTable db).

(** A comparison with undefined cannot be sent to the database. *)
Definition defined_cond (c : Cond) : bool :=
  match c with
  | EqCollection None => false
  | _ => true
  end.

(** db.query.cmsEntryTable.findMany(config); [None] when the query fails. *)
Definition findMany (c : FindConfig) (db : Db) : option (list EntryResult) :=
  if forallb defined_cond (find_where c) then
    map (load_relations (find_with c) db)
      <$> paginate (find_limit c) (find_offset c)
            (order_entries (find_orderBy c) (matching (find_where c) db))
  else None.

(** findFirst is findMany with limit 1, and yields the first row if any. *)
Definition findFirst (c : FindConfig) (db : Db) : option (option EntryResult) :=
  head <$> findMany {| find_where := find_where c; find_orderBy := find_orderBy c;
                       find_limit := Some (Int 1); find_offset := find_offset c;
                       find_with := find_with c |} db.

(** Modelled from the spec: the column defaults live in the table
    declaration, which is not among the sources.  The store generates the
    id and both timestamps; updatedBy and publishedAt are nullable columns
    that the insert does not supply. *)
Definition new_row (newId : string) (now : Timestamp) (v : InsertValues) : CmsEntry :=
  {| entry_id := newId;
     entry_collection := default "" (iv_collection v);
     entry_slug := iv_slug v;
     entry_title := iv_title v;
     entry_content := iv_content v;
     entry_fields := iv_fields v;
     entry_status := iv_status v;
     entry_createdBy := iv_createdBy v;
     entry_updatedBy := None;
     entry_createdAt := now;
     entry_updatedAt := now;
     entry_publishedAt := None |}.

(** Modelled from the spec: an update refreshes updatedAt (the column's
    on-update rule is in the table declaration, not among the sources).
    A column whose value in set({...}) is undefined keeps its value. *)
Definition apply_set (now : Timestamp) (s : SetValues) (e : CmsEntry) : CmsEntry :=
  {| entry_id := entry_id e;
     entry_collection := entry_collection e;
     entry_slug := default (entry_slug e) (sv_slug s);
     entry_title := default (entry_title e) (sv_title s);
     entry_content := default (entry_content e) (sv_content s);
     entry_fields := default (entry_fields e) (sv_fields s);
     entry_status := default (entry_status e) (sv_status s);
     entry_createdBy := entry_createdBy e;
     entry_updatedBy := entry_updatedBy e;
     entry_createdAt := entry_createdAt e;
     entry_updatedAt := now;
     entry_publishedAt := entry_publishedAt e |}.

Definition with_entries (db : Db) (rows : list CmsEntry) : Db :=
  {| cmsEntryTable := rows;
     cmsEntryMediaTable := cmsEntryMediaTable db;
     cmsMediaTable := cmsMediaTable db;
     userTable := userTable db |}.

Definition with_entryMedia (db : Db) (rows : list CmsEntryMedia) : Db :=
  {| cmsEntryTable := cmsEntryTable db;
     cmsEntryMediaTable := rows;
     cmsMediaTable := cmsMediaTable db;
     userTable := userTable db |}.

(** The failure taxonomy.  The source throws Error objects told apart by
    their message; UpdateRaceLost is the spec's name for a failure that the
    source has no throw for; NoValuesToSet is the error of the query
    builder when set({...}) holds no value; UniqueConstraintViolation is the
    store's refusal of a second row with the same (collection, slug);
    StoreFailure is any other failure of a store call. *)
Inductive CmsError :=
| CollectionNotFound (collectionSlug : string)
| DuplicateSlug (slug collection : string)
| EntryNotFound (i : string)
| UpdateRaceLost
| NoValuesToSet
| UniqueConstraintViolation
| StoreFailure.

(** What a store call comes back with: an answer and the tables after it,
    or a refusal that leaves the tables alone. *)
Inductive Reply (X : Type) : Type :=
| Done (x : X) (db : Db)
| Refused (e : CmsError).

Arguments Done {X} x db.
Arguments Refused {X} e.

(** The (collection, slug) pair of a row. *)
Definition slug_key (e : CmsEntry) : string * string :=
  (entry_collection e, entry_slug e).

(** db.insert(cmsEntryTable).values(v).returning(), one row.

    Modelled from the spec: the store holds (collection, slug) unique and
    refuses a row that would break it; the collection column is not null. *)
Definition insertEntry (newId : string) (now : Timestamp) (v : InsertValues)
    (db : Db) : Reply CmsEntry :=
  match iv_collection v with
  | None => Refused StoreFailure
  | Some _ =>
      let row := new_row newId now v in
      if bool_decide (slug_key row ∈ map slug_key (cmsEntryTable db))
      then Refused UniqueConstraintViolation
      else Done row (with_entries db (cmsEntryTable db ++ [row]))
  end.

(** The table after set(s).where(eq(id, i)). *)
Definition updated_rows (now : Timestamp) (s : SetValues) (i : string)
    (db : Db) : list CmsEntry :=
  map (fun e => if bool_decide (entry_id e = i) then apply_set now s e else e)
      (cmsEntryTable db).

(** db.update(cmsEntryTable).set(s).where(eq(id, i)).returning()

    Modelled from the spec: the store refuses an update after which two rows
    would share a (collection, slug). *)
Definition updateEntries (now : Timestamp) (s : SetValues) (i : string)
    (db : Db) : Reply (list CmsEntry) :=
  let rows := updated_rows now s i db in
  if bool_decide (NoDup (map slug_key rows))
  then Done (filter (fun e => entry_id e = i) rows) (with_entries db rows)
  else Refused UniqueConstraintViolation.

(** db.delete(cmsEntryMediaTable).where(eq(entryId, i)) *)
Definition deleteEntryMedia (i : string) (db : Db) : Db :=
  with_entryMedia db (filter (fun a => em_entryId a ≠ i) (cmsEntryMediaTable db)).

(** db.delete(cmsEntryTable).where(eq(id, i)) *)
Definition deleteEntry (i : string) (db : Db) : Db :=
  with_entries db (filter (fun e => entry_id e ≠ i) (cmsEntryTable db)).

(** ** Programs over the store *)

Inductive StoreOp : Type -> Type :=
| FindMany (c : FindConfig) : StoreOp (list EntryResult)
| FindFirst (c : FindConfig) : StoreOp (option EntryResult)
| Insert (v : InsertValues) : StoreOp CmsEntry
| Update (s : SetValues) (i : string) : StoreOp (list CmsEntry)
| DeleteEntryMedia (i : string) : StoreOp unit
| DeleteEntry (i : string) : StoreOp unit.

Inductive Prog (A : Type) : Type :=
| Ret (a : A)
| Throw (e : CmsError)
| Call {X : Type} (op : StoreOp X) (k : X -> Prog A).

Arguments Ret {A} a.
Arguments Throw {A} e.
Arguments Call {A X} op k.

Notation "'await' x ← op ; k" := (Call op (fun x => k))
  (at level 10, x binder, op at level 100, k at level 200,
   format "'[v' 'await'  x  ←  op ; '/' k ']'").

Inductive Outcome (A : Type) : Type :=
| Ok (a : A)
| Err (e : CmsError).

Arguments Ok {A} a.
Arguments Err {A} e.

(** What a store call answered. *)
Inductive Event :=
| EvFindMany (rows : list EntryResult)
| EvFindFirst (row : option EntryResult)
| EvInsert (row : CmsEntry)
| EvUpdate (rows : list CmsEntry)
| EvDelete
| EvFault
| EvRefused (e : CmsError).

Definition event_of {X} (op : StoreOp X) : X -> Event :=
  match op in StoreOp T return T -> Event with
  | FindMany _ => EvFindMany
  | FindFirst _ => EvFindFirst
  | Insert _ => EvInsert
  | Update _ _ => EvUpdate
  | DeleteEntryMedia _ => fun _ => EvDelete
  | DeleteEntry _ => fun _ => EvDelete
  end.

Definition answer {X} (r : option X) (db : Db) : Reply X :=
  match r with
  | Some x => Done x db
  | None => Refused StoreFailure
  end.

Definition exec {X} (newId : string) (now : Timestamp) (op : StoreOp X)
    (db : Db) : Reply X :=
  match op in StoreOp T return Reply T with
  | FindMany c => answer (findMany c db) db
  | FindFirst c => answer (findFirst c db) db
  | Insert v => insertEntry newId now v db
  | Update s i => updateEntries now s i db
  | DeleteEntryMedia i => Done tt (deleteEntryMedia i db)
  | DeleteEntry i => Done tt (deleteEntry i db)
  end.

(** The environment of a request.  Store calls are numbered from 0 in the
    order the request issues them; before call [n] the tables are whatever
    concurrent requests have made of them ([interfere n]); call [n] may fail
    for a reason of the infrastructure ([fault n]) or be refused by the
    store itself; [gen_id n] and [clock n] are the id and the time the store
    uses in call [n]. *)
Record Env := mkEnv {
  interfere : nat -> Db -> Db;
  fault : nat -> bool;
  gen_id : nat -> string;
  clock : nat -> Timestamp
}.

Record Result (A : Type) := mkRun {
  outcome : Outcome A;
  final : Db;
  trace : list Event
}.

Arguments mkRun {A} _ _ _.
Arguments outcome {A} _.
Arguments final {A} _.
Arguments trace {A} _.

Fixpoint run {A} (env : Env) (n : nat) (p : Prog A) (db : Db) : Result A :=
  match p with
  | Ret a => mkRun (Ok a) db []
  | Throw e => mkRun (Err e) db []
  | Call op k =>
      let db1 := interfere env n db in
      if fault env n then mkRun (Err StoreFailure) db1 [EvFault]
      else
        match exec (gen_id env n) (clock env n) op db1 with
        | Refused e => mkRun (Err e) db1 [EvRefused e]
        | Done x db2 =>
            let rest := run env (S n) (k x) db2 in
            mkRun (outcome rest) (final rest) (event_of op x :: trace rest)
        end
  end.

(** A request that runs alone against a store that does not fail. *)
Definition alone (ids : nat -> string) (clk : nat -> Timestamp) : Env :=
  {| interfere := fun _ db => db; fault := fun _ => false;
     gen_id := ids; clock := clk |}.

(** ** The operations of the module *)

Record GetCmsCollectionParams := mkGetCollection {
  gc_collectionSlug : string;
  gc_status : option CmsEntryStatus;
  gc_includeRelations : option CmsIncludeRelations;
  gc_limit : option JsNumber;
  gc_offset : option JsNumber
}.

Record GetCmsEntryParams := mkGetEntry {
  ge_collectionSlug : string;
  ge_slug : string;
  ge_status : option CmsEntryStatus;
  ge_includeRelations : option CmsIncludeRelations
}.

Record GetCmsEntryByIdParams := mkGetById {
  gi_id : string;
  gi_includeRelations : option CmsIncludeRelations
}.

Record CreateCmsEntryParams := mkCreate {
  cc_collectionSlug : string;
  cc_slug : string;
  cc_title : string;
  cc_content : Json;
  cc_fields : Json;
  cc_status : option CmsStatus;
  cc_createdBy : string
}.

Record UpdateCmsEntryParams := mkUpdate {
  up_id : string;
  up_slug : option string;
  up_title : option string;
  up_content : option Json;
  up_fields : option Json;
  up_status : option CmsStatus
}.

Record DeleteCmsEntryParams := mkDelete { del_id : string }.

(** A query without a [with] clause loads no relation. *)
Definition no_relations : Relations :=
  {| rel_createdByUser := None; rel_entryMedia := None |}.

(** A findFirst config that has only a where clause. *)
Definition where_only (conds : list Cond) : FindConfig :=
  {| find_where := conds; find_orderBy := []; find_limit := None;
     find_offset := None; find_with := no_relations |}.

(** if (status !== 'all') whereConditions.push(eq(status, status)) *)
Definition status_filter (status : CmsEntryStatus) : list Cond :=
  match status with
  | All => []
  | Stored s => [EqStatus s]
  end.

(** JS truthiness of an optional string: undefined and the empty string are
    falsy. *)
Definition truthy_string (s : option string) : bool :=
  match s with
  | Some v => negb (bool_decide (v = ""))
  | None => false
  end.

Section Operations.

(** The registry the module reads (cmsConfig in the source).

    The three getters are wrapped in React's per-request cache(); it is
    keyed on the identity of the argument object, which every call site
    builds afresh, so a call always reaches the store and the wrapper is
    left out.  findFirst answers undefined when no row matches; the source
    passes that on under the type null, here it is [None]. *)
Variable cfg : CmsConfig.

Definition getCmsCollection (p : GetCmsCollectionParams) : Prog (list EntryResult) :=
  let status := default (Stored PUBLISHED) (gc_status p) in
  match resolve cfg (gc_collectionSlug p) with
  | None => Throw (CollectionNotFound (gc_collectionSlug p))
  | Some collection =>
      let whereConditions :=
        [EqCollection (slug_of collection)] ++ status_filter status in
      await entries ← FindMany
        {| find_where := whereConditions;
           find_orderBy := [DescCreatedAt];
           find_limit := gc_limit p;
           find_offset := gc_offset p;
           find_with := buildCmsRelationsQuery (gc_includeRelations p) |};
      Ret entries
  end.

Definition getCmsEntry (p : GetCmsEntryParams) : Prog (option EntryResult) :=
  let status := default (Stored PUBLISHED) (ge_status p) in
  match resolve cfg (ge_collectionSlug p) with
  | None => Throw (CollectionNotFound (ge_collectionSlug p))
  | Some collection =>
      let whereConditions :=
        [EqCollection (slug_of collection); EqSlug (ge_slug p)]
          ++ status_filter status in
      await entry ← FindFirst
        {| find_where := whereConditions;
           find_orderBy := [];
           find_limit := None;
           find_offset := None;
           find_with := buildCmsRelationsQuery (ge_includeRelations p) |};
      Ret entry
  end.

Definition getCmsEntryById (p : GetCmsEntryByIdParams) : Prog (option EntryResult) :=
  await entry ← FindFirst
    {| find_where := [EqId (gi_id p)];
       find_orderBy := [];
       find_limit := None;
       find_offset := None;
       find_with := buildCmsRelationsQuery (gi_includeRelations p) |};
  Ret entry.

Definition createCmsEntry (p : CreateCmsEntryParams) : Prog CmsEntry :=
  let status := default DRAFT (cc_status p) in
  match resolve cfg (cc_collectionSlug p) with
  | None => Throw (CollectionNotFound (cc_collectionSlug p))
  | Some collection =>
      await existingEntry ← FindFirst
        (where_only [EqCollection (slug_of collection); EqSlug (cc_slug p)]);
      match existingEntry with
      | Some _ => Throw (DuplicateSlug (cc_slug p) (slug_text collection))
      | None =>
          await newEntry ← Insert
            {| iv_collection := slug_of collection;
               iv_slug := cc_slug p;
               iv_title := cc_title p;
               iv_content := cc_content p;
               iv_fields := cc_fields p;
               iv_status := status;
               iv_createdBy := cc_createdBy p |};
          Ret newEntry
      end
  end.

(** The object passed to .set(...). *)
Definition set_of (p : UpdateCmsEntryParams) : SetValues :=
  {| sv_slug := up_slug p;
     sv_title := up_title p;
     sv_content := up_content p;
     sv_fields := up_fields p;
     sv_status := up_status p |}.

(** Every value of the object passed to .set(...) is undefined. *)
Definition nothing_supplied (p : UpdateCmsEntryParams) : bool :=
  match up_slug p, up_title p, up_content p, up_fields p, up_status p with
  | None, None, None, None, None => true
  | _, _, _, _, _ => false
  end.

(** The update statement and [return updatedEntry || null].

    Modelled from the spec: the ORM is not among the sources.  The query
    builder throws when .set(...) is given no value, before any statement is
    sent. *)
Definition update_statement (p : UpdateCmsEntryParams) : Prog (option CmsEntry) :=
  if nothing_supplied p then Throw NoValuesToSet
  else
    await updated ← Update (set_of p) (up_id p);
    Ret (head updated).

(** if (slug && slug !== existingEntry.slug) *)
Definition slug_is_changing (p : UpdateCmsEntryParams) (existing : CmsEntry) : bool :=
  truthy_string (up_slug p)
    && negb (bool_decide (up_slug p = Some (entry_slug existing))).

Definition updateCmsEntry (p : UpdateCmsEntryParams) : Prog (option CmsEntry) :=
  await existingEntry ← FindFirst (where_only [EqId (up_id p)]);
  match existingEntry with
  | None => Throw (EntryNotFound (up_id p))
  | Some existing =>
      if slug_is_changing p (res_entry existing) then
        await conflictingEntry ← FindFirst
          (where_only [EqCollection (Some (entry_collection (res_entry existing)));
                       EqSlug (default "" (up_slug p))]);
        match conflictingEntry with
        | Some _ => Throw (DuplicateSlug (default "" (up_slug p))
                             (entry_collection (res_entry existing)))
        | None => update_statement p
        end
      else update_statement p
  end.

Definition deleteCmsEntry (p : DeleteCmsEntryParams) : Prog unit :=
  await existingEntry ← FindFirst (where_only [EqId (del_id p)]);
  match existingEntry with
  | None => Throw (EntryNotFound (del_id p))
  | Some _ =>
      await _ ← DeleteEntryMedia (del_id p);
      await _ ← DeleteEntry (del_id p);
      Ret tt
  end.

End Operations.

(** ** Auxiliary notions for the statements *)

(** The rows that hold a slug in a collection, whatever their status. *)
Definition holders (coll slug : string) (db : Db) : list CmsEntry :=
  filter (λ e, entry_collection e = coll ∧ entry_slug e = slug) (cmsEntryTable db).

(** The values createCmsEntry hands to the insert. *)
Definition values_of (collection : CmsCollection) (p : CreateCmsEntryParams) : InsertValues :=
  {| iv_collection := Some (coll_slug collection);
     iv_slug := cc_slug p;
     iv_title := cc_title p;
     iv_content := cc_content p;
     iv_fields := cc_fields p;
     iv_status := default DRAFT (cc_status p);
     iv_createdBy := cc_createdBy p |}.

(** ** Sample data *)

Definition helloWorld : CreateCmsEntryParams :=
  {| cc_collectionSlug := "blog"; cc_slug := "hello-world"; cc_title := "Hello";
     cc_content := "{}"; cc_fields := "{}"; cc_status := Some DRAFT;
     cc_createdBy := "u1" |}.

Definition emptyDb : Db :=
  {| cmsEntryTable := []; cmsEntryMediaTable := []; cmsMediaTable := [];
     userTable := [] |}.

Definition ids0 (n : nat) : string := "cms_ent_1".
Definition clock0 (n : nat) : Timestamp := 1700000000 + Z.of_nat n.

Definition ada : User :=
  {| user_id := "u1"; user_firstName := Some "Ada"; user_lastName := Some "L";
     user_email := Some "ada@example.com"; user_avatar := None;
     user_passwordHash := Some "pbkdf2$secret" |}.

Definition helloEntry : CmsEntry :=
  {| entry_id := "cms_ent_1"; entry_collection := "blog";
     entry_slug := "hello-world"; entry_title := "Hello"; entry_content := "{}";
     entry_fields := "{}"; entry_status := DRAFT; entry_createdBy := "u1";
     entry_updatedBy := None; entry_createdAt := 1700000001;
     entry_updatedAt := 1700000001; entry_publishedAt := None |}.

Definition picture (i : string) : MediaAsset :=
  {| media_id := i; media_fileName := "a.png"; media_mimeType := "image/png";
     media_sizeInBytes := 1024; media_bucketKey := "k"; media_width := None;
     media_height := None; media_alt := None |}.

Definition attach (i eid mid : string) (pos : option Z) : CmsEntryMedia :=
  {| em_id := i; em_entryId := eid; em_mediaId := mid; em_position := pos;
     em_caption := None |}.

(** One draft entry with three attached pictures, stored out of order. *)
Definition helloDb : Db :=
  {| cmsEntryTable := [helloEntry];
     cmsEntryMediaTable :=
       [attach "a1" "cms_ent_1" "m1" (Some 2);
        attach "a2" "cms_ent_1" "m2" None;
        attach "a3" "cms_ent_1" "m1" (Some 1);
        attach "a4" "cms_ent_9" "m2" (Some 0)];
     cmsMediaTable := [picture "m1"; picture "m2"];
     userTable := [ada] |}.


(** The store call in which updateCmsEntry, started at call [n], issues its
    update statement: one call later when it checks the slug for conflicts. *)
Definition update_call (n : nat) (p : UpdateCmsEntryParams) (existing : CmsEntry) : nat :=
  if slug_is_changing p existing then S (S n) else S n.

(** No two rows share a (collection, slug) pair. *)
Definition unique_slugs (db : Db) : Prop :=
  NoDup (map slug_key (cmsEntryTable db)).

(** No two rows share an id (the primary key). *)
Definition unique_ids (db : Db) : Prop :=
  NoDup (map entry_id (cmsEntryTable db)).

(** An update that supplies nothing but the id. *)
Definition touch (i : string) : UpdateCmsEntryParams :=
  {| up_id := i; up_slug := None; up_title := None; up_content := None;
     up_fields := None; up_status := None |}.

Definition retitle (i title : string) : UpdateCmsEntryParams :=
  {| up_id := i; up_slug := None; up_title := Some title; up_content := None;
     up_fields := None; up_status := None |}.

Definition set_status (i : string) (s : CmsStatus) : UpdateCmsEntryParams :=
  {| up_id := i; up_slug := None; up_title := None; up_content := None;
     up_fields := None; up_status := Some s |}.

Definition reslug (i slug : string) : UpdateCmsEntryParams :=
  {| up_id := i; up_slug := Some slug; up_title := None; up_content := None;
     up_fields := None; up_status := None |}.

(** A concurrent request deletes entry [i] just before store call [k]. *)
Definition deleted_before (k : nat) (i : string) : Env :=
  {| interfere := λ n db, if bool_decide (n = k) then deleteEntry i db else db;
     fault := λ _, false;
     gen_id := ids0;
     clock := clock0 |}.

(** Store call [k] fails; nothing else happens. *)
Definition failing_at (k : nat) : Env :=
  {| interfere := λ _ db, db;
     fault := λ n, bool_decide (n = k);
     gen_id := ids0;
     clock := clock0 |}.

Definition ids1 (n : nat) : string := "cms_ent_2".

Definition untitledPage : CreateCmsEntryParams :=
  {| cc_collectionSlug := "blog"; cc_slug := ""; cc_title := "Untitled";
     cc_content := "{}"; cc_fields := "{}"; cc_status := None;
     cc_createdBy := "u1" |}.

Definition aboutPage : CreateCmsEntryParams :=
  {| cc_collectionSlug := "blog"; cc_slug := "about"; cc_title := "About";
     cc_content := "{}"; cc_fields := "{}"; cc_status := None;
     cc_createdBy := "u1" |}.

(** The store after two creates in a row: a page whose slug is the empty
    string, then the about page. *)
Definition twoPages : Db :=
  final (run (alone ids1 clock0) 0 (createCmsEntry cmsConfig aboutPage)
           (final (run (alone ids0 clock0) 0
                     (createCmsEntry cmsConfig untitledPage) emptyDb))).

Definition helloQuery (status : option CmsEntryStatus) : GetCmsEntryParams :=
  {| ge_collectionSlug := "blog"; ge_slug := "hello-world"; ge_status := status;
     ge_includeRelations := None |}.

Definition blogList (status : option CmsEntryStatus) : GetCmsCollectionParams :=
  {| gc_collectionSlug := "blog"; gc_status := status;
     gc_includeRelations := None; gc_limit := Some (Int 10); gc_offset := None |}.


(** ** Further notions for the statements *)

(** Every media association belongs to an entry of the table. *)
Definition no_orphans (db : Db) : Prop :=
  ∀ a, a ∈ cmsEntryMediaTable db →
    ∃ e, e ∈ cmsEntryTable db ∧ entry_id e = em_entryId a.

(** A concurrent request inserts the row [rival] just before store call [k]. *)
Definition inserted_before (k : nat) (rival : CmsEntry)
    (ids : nat → string) (clk : nat → Timestamp) : Env :=
  {| interfere := λ n db,
       if bool_decide (n = k)
       then with_entries db (cmsEntryTable db ++ [rival]) else db;
     fault := λ _, false;
     gen_id := ids;
     clock := clk |}.

(** The whole of a collection: no limit, no offset, no relations. *)
Definition whole (collectionSlug : string) (status : option CmsEntryStatus) :
    GetCmsCollectionParams :=
  {| gc_collectionSlug := collectionSlug; gc_status := status;
     gc_includeRelations := None; gc_limit := None; gc_offset := None |}.


Definition byId (i : string) : GetCmsEntryByIdParams :=
  {| gi_id := i; gi_includeRelations := None |}.

(** A published sibling of the hello-world entry, under the same slug. *)
Definition helloRival : CmsEntry :=
  {| entry_id := "cms_ent_7"; entry_collection := "blog";
     entry_slug := "hello-world"; entry_title := "Hello too"; entry_content := "{}";
     entry_fields := "{}"; entry_status := PUBLISHED; entry_createdBy := "u1";
     entry_updatedBy := None; entry_createdAt := 1700000000;
     entry_updatedAt := 1700000000; entry_publishedAt := None |}.

(** The hello-world store without the association of a missing entry. *)
Definition tidyDb : Db :=
  with_entryMedia helloDb
    [attach "a1" "cms_ent_1" "m1" (Some 2);
     attach "a2" "cms_ent_1" "m2" None;
     attach "a3" "cms_ent_1" "m1" (Some 1)].

(** The query that getCmsCollection sends to the store. *)
Definition collection_query (collection : CmsCollection)
    (p : GetCmsCollectionParams) : FindConfig :=
  {| find_where := [EqCollection (Some (coll_slug collection))]
                     ++ status_filter (default (Stored PUBLISHED) (gc_status p));
     find_orderBy := [DescCreatedAt];
     find_limit := gc_limit p;
     find_offset := gc_offset p;
     find_with := buildCmsRelationsQuery (gc_includeRelations p) |}.

(** A store call that only read. *)
Definition is_read (ev : Event) : Prop :=
  match ev with
  | EvFindMany _ | EvFindFirst _ => True
  | _ => False
  end.

(** A failure of the module's own checks, as opposed to one of the store. *)
Definition is_rejection (err : CmsError) : Prop :=
  match err with
  | CollectionNotFound _ | DuplicateSlug _ _ | EntryNotFound _ => True
  | _ => False
  end.




(** * Properties *)

(** Unfold one store call of a run, and nothing else. *)
Ltac run_call := cbn [run exec answer event_of outcome final trace].

(** ** The store: filters, first rows, ordering *)

Global Instance created_desc_total : Total created_desc.
Proof. intros a b. unfold created_desc. lia. Qed.

Global Instance position_asc_total : Total position_asc.
Proof.
  intros a b. unfold position_asc.
  destruct (em_position a), (em_position b); simpl; auto; lia.
Qed.

Lemma and__app (c1 c2 : list Cond) (e : CmsEntry) :
  and_ (c1 ++ c2) e = and_ c1 e && and_ c2 e.
Proof. unfold and_. apply forallb_app. Qed.

Lemma status_filter_true (status : CmsEntryStatus) (e : CmsEntry) :
  and_ (status_filter status) e = true ↔
  status = All ∨ status = Stored (entry_status e).
Proof.
  destruct status as [s|]; simpl.
  - rewrite andb_true_r, bool_decide_eq_true. split.
    + intros ->. by right.
    + intros [?|[= ->]]; done.
  - split; auto.
Qed.

Lemma status_filter_defined (status : CmsEntryStatus) :
  forallb defined_cond (status_filter status) = true.
Proof. by destruct status. Qed.

Lemma eq_collection_true (slug : string) (e : CmsEntry) :
  bool_decide (Some (entry_collection e) = Some slug) = true ↔
  entry_collection e = slug.
Proof. rewrite bool_decide_eq_true. split; [by intros [= ->] | by intros ->]. Qed.

(** The where clause of getCmsCollection is the conjunctive filter. *)
Lemma matching_collection (slug : string) (status : CmsEntryStatus) (db : Db) :
  matching ([EqCollection (Some slug)] ++ status_filter status) db =
  filter (λ e, entry_collection e = slug ∧
               (status = All ∨ status = Stored (entry_status e)))
         (cmsEntryTable db).
Proof.
  unfold matching. apply list_filter_iff. intros e.
  rewrite and__app, andb_true_iff, status_filter_true.
  simpl. rewrite andb_true_r, eq_collection_true. done.
Qed.

(** The where clause of getCmsEntry adds the slug. *)
Lemma matching_entry (coll slug : string) (status : CmsEntryStatus) (db : Db) :
  matching ([EqCollection (Some coll); EqSlug slug] ++ status_filter status) db =
  filter (λ e, entry_collection e = coll ∧ entry_slug e = slug ∧
               (status = All ∨ status = Stored (entry_status e)))
         (cmsEntryTable db).
Proof.
  unfold matching. apply list_filter_iff. intros e.
  rewrite and__app, andb_true_iff, status_filter_true.
  simpl. rewrite andb_true_r, andb_true_iff, eq_collection_true, bool_decide_eq_true.
  tauto.
Qed.

Lemma matching_id (i : string) (db : Db) :
  matching [EqId i] db = filter (λ e, entry_id e = i) (cmsEntryTable db).
Proof.
  unfold matching. apply list_filter_iff. intros e.
  simpl. rewrite andb_true_r, bool_decide_eq_true. done.
Qed.

Lemma matching_collection_slug (coll slug : string) (db : Db) :
  matching [EqCollection (Some coll); EqSlug slug] db =
  filter (λ e, entry_collection e = coll ∧ entry_slug e = slug) (cmsEntryTable db).
Proof.
  unfold matching. apply list_filter_iff. intros e.
  simpl. rewrite andb_true_r, andb_true_iff, eq_collection_true, bool_decide_eq_true.
  done.
Qed.

Lemma head_map_take_1 {A B} (f : A → B) (l : list A) :
  head (map f (take 1 l)) = f <$> head l.
Proof. by destruct l. Qed.

(** findFirst without order or offset: the first matching row of the table,
    unless the where clause compares with undefined. *)
Lemma findFirst_first (conds : list Cond) (w : Relations) (db : Db) :
  findFirst {| find_where := conds; find_orderBy := []; find_limit := None;
               find_offset := None; find_with := w |} db =
  if forallb defined_cond conds
  then Some (load_relations w db <$> head (matching conds db))
  else None.
Proof.
  unfold findFirst, findMany. cbn [find_where find_orderBy find_limit find_offset find_with].
  destruct (forallb defined_cond conds); [|done].
  change (paginate (Some (Int 1)) None (order_entries [] (matching conds db)))
    with (Some (take 1 (matching conds db))).
  cbn [fmap option_fmap option_map]. f_equal. apply head_map_take_1.
Qed.

Lemma map_res_entry_load (w : Relations) (db : Db) (l : list CmsEntry) :
  map res_entry (map (load_relations w db) l) = l.
Proof. induction l as [|e l IH]; simpl; by rewrite ?IH. Qed.

Global Instance created_desc_trans : Transitive created_desc.
Proof. intros a b c. unfold created_desc. lia. Qed.


Lemma order_desc_perm (l : list CmsEntry) :
  order_entries [DescCreatedAt] l ≡ₚ l.
Proof. simpl. apply merge_sort_Permutation. Qed.



(** Whatever the limit and the offset, a window is cut out of the list: it
    is a stretch of [k] elements after the first [skip]. *)
Lemma paginate_Some {A} (limit offset : option JsNumber) (l w : list A) :
  paginate limit offset l = Some w →
  w = l ∨ ∃ k skip, w = take k (drop skip l).
Proof.
  unfold paginate.
  destruct (limit_clause limit) as [x|], (offset_clause offset) as [y|];
    try destruct (sql_integer x) as [k|]; try destruct (sql_integer y) as [skip|];
    intros [= <-]; eauto.
  right. exists (Z.to_nat k), 0%nat. done.
Qed.

Lemma paginate_subseteq {A} (limit offset : option JsNumber) (l w : list A) :
  paginate limit offset l = Some w → w ⊆ l.
Proof.
  intros [->|(k & skip & ->)]%paginate_Some; [done|].
  etrans; [apply subseteq_take | apply subseteq_drop].
Qed.






Lemma findMany_Some (c : FindConfig) (db : Db) (rows : list EntryResult) :
  findMany c db = Some rows →
  ∃ w,
    paginate (find_limit c) (find_offset c)
      (order_entries (find_orderBy c) (matching (find_where c) db)) = Some w ∧
    rows = map (load_relations (find_with c) db) w.
Proof.
  unfold findMany. destruct (forallb _ _); [|done].
  destruct (paginate _ _ _) as [w|]; [|done].
  intros [= <-]. eauto.
Qed.

Lemma order_entries_perm (o : list EntryOrder) (l : list CmsEntry) :
  order_entries o l ≡ₚ l.
Proof. destruct o as [|[] ?]; simpl; [done| |]; apply merge_sort_Permutation. Qed.

Lemma findMany_in_table (c : FindConfig) (db : Db) (rows : list EntryResult)
    (x : EntryResult) :
  findMany c db = Some rows → x ∈ rows →
  res_entry x ∈ cmsEntryTable db ∧ and_ (find_where c) (res_entry x) = true.
Proof.
  intros (w & Hw & ->)%findMany_Some Hx.
  apply list_elem_of_fmap in Hx as (e & -> & He). cbn [load_relations res_entry].
  apply (paginate_subseteq _ _ _ _ Hw) in He.
  rewrite order_entries_perm in He.
  unfold matching in He. apply list_elem_of_filter in He. tauto.
Qed.

(** ** The registry *)

Lemma resolve_own (cfg : CmsConfig) (key : string) (collection : CmsCollection) :
  collections cfg !! key = Some collection →
  resolve cfg key = Some (Own collection).
Proof. intros H. unfold resolve. by rewrite H. Qed.


Lemma resolve_not_own (cfg : CmsConfig) (key : string) :
  collections cfg !! key = None →
  resolve cfg key = None ∨ resolve cfg key = Some Inherited.
Proof. intros H. unfold resolve. rewrite H. destruct (bool_decide _); auto. Qed.

(** ** getCmsCollection *)

Lemma collection_conds_defined (slug : string) (status : CmsEntryStatus) :
  forallb defined_cond ([EqCollection (Some slug)] ++ status_filter status) = true.
Proof. rewrite forallb_app, status_filter_defined. done. Qed.

Lemma entry_conds_defined (coll slug : string) (status : CmsEntryStatus) :
  forallb defined_cond
    ([EqCollection (Some coll); EqSlug slug] ++ status_filter status) = true.
Proof. rewrite forallb_app, status_filter_defined. done. Qed.

(** The run of getCmsCollection for a collection of the registry. *)
Lemma getCmsCollection_run (cfg : CmsConfig) (env : Env) (n : nat)
    (p : GetCmsCollectionParams) (db : Db) (collection : CmsCollection) :
  resolve cfg (gc_collectionSlug p) = Some (Own collection) →
  fault env n = false →
  run env n (getCmsCollection cfg p) db =
  match findMany (collection_query collection p) (interfere env n db) with
  | Some rows => mkRun (Ok rows) (interfere env n db) [EvFindMany rows]
  | None => mkRun (Err StoreFailure) (interfere env n db) [EvRefused StoreFailure]
  end.
Proof.
  intros Hc Hf. unfold getCmsCollection. rewrite Hc. run_call. rewrite Hf.
  cbn [slug_of]. fold (collection_query collection p).
  destruct (findMany _ _); reflexivity.
Qed.




(** ** getCmsEntry *)



(** ** buildCmsRelationsQuery *)

Global Instance null_first_le_trans : Transitive null_first_le.
Proof. intros [a|] [b|] [c|]; simpl; try done; lia. Qed.

Global Instance position_asc_trans : Transitive position_asc.
Proof. intros a b c. unfold position_asc. apply null_first_le_trans. Qed.


(** A run of getCmsEntryById by a request that is alone. *)
Lemma getCmsEntryById_alone (ids : nat → string) (clk : nat → Timestamp) (n : nat)
    (p : GetCmsEntryByIdParams) (db : Db) :
  run (alone ids clk) n (getCmsEntryById p) db =
  let found :=
    load_relations (buildCmsRelationsQuery (gi_includeRelations p)) db <$>
    head (filter (λ e, entry_id e = gi_id p) (cmsEntryTable db)) in
  mkRun (Ok found) db [EvFindFirst found].
Proof.
  unfold getCmsEntryById. run_call. cbn [fault alone interfere].
  rewrite findFirst_first, matching_id. reflexivity.
Qed.


(** ** createCmsEntry *)

Lemma holders_nil (coll slug : string) (db : Db) :
  holders coll slug db = [] ↔
  ¬ ∃ e, e ∈ cmsEntryTable db ∧ entry_collection e = coll ∧ entry_slug e = slug.
Proof.
  unfold holders. split.
  - intros Hnil (e & Hin & Hc & Hs).
    eapply filter_nil_not_elem_of; [exact Hnil| |exact Hin]. done.
  - intros Hno. destruct (filter _ _) as [|e l] eqn:Hf; [done|].
    destruct Hno. exists e.
    assert (He : e ∈ e :: l) by apply list_elem_of_here.
    rewrite <- Hf in He. apply list_elem_of_filter in He. tauto.
Qed.

Lemma holders_head_None (coll slug : string) (db : Db) :
  head (holders coll slug db) = None ↔ holders coll slug db = [].
Proof. apply head_None. Qed.

Lemma holders_nil_key (coll slug : string) (db : Db) :
  holders coll slug db = [] → (coll, slug) ∉ map slug_key (cmsEntryTable db).
Proof.
  intros Hnil Hin. apply list_elem_of_fmap in Hin as (e & Hk & He).
  apply holders_nil in Hnil. apply Hnil. exists e.
  unfold slug_key in Hk. injection Hk as -> ->. done.
Qed.

Lemma holders_subset (coll slug : string) (db : Db) (e : CmsEntry) :
  e ∈ holders coll slug db ↔
  e ∈ cmsEntryTable db ∧ entry_collection e = coll ∧ entry_slug e = slug.
Proof. unfold holders. rewrite list_elem_of_filter. tauto. Qed.

(** The insert of a row whose (collection, slug) nobody holds goes through. *)
Lemma insertEntry_free (newId : string) (now : Timestamp) (collection : CmsCollection)
    (p : CreateCmsEntryParams) (db : Db) :
  holders (coll_slug collection) (cc_slug p) db = [] →
  insertEntry newId now (values_of collection p) db =
  Done (new_row newId now (values_of collection p))
       (with_entries db (cmsEntryTable db
                           ++ [new_row newId now (values_of collection p)])).
Proof.
  intros Hfree%holders_nil_key. unfold insertEntry. cbn [values_of iv_collection].
  by rewrite bool_decide_eq_false_2.
Qed.

(** A run of createCmsEntry by a request that is alone. *)
Lemma createCmsEntry_alone (cfg : CmsConfig) (ids : nat → string)
    (clk : nat → Timestamp) (n : nat) (p : CreateCmsEntryParams) (db : Db)
    (collection : CmsCollection) :
  collections cfg !! cc_collectionSlug p = Some collection →
  run (alone ids clk) n (createCmsEntry cfg p) db =
  match head (holders (coll_slug collection) (cc_slug p) db) with
  | Some e =>
      mkRun (Err (DuplicateSlug (cc_slug p) (coll_slug collection))) db
            [EvFindFirst (Some (load_relations no_relations db e))]
  | None =>
      let row := new_row (ids (S n)) (clk (S n)) (values_of collection p) in
      mkRun (Ok row) (with_entries db (cmsEntryTable db ++ [row]))
            [EvFindFirst None; EvInsert row]
  end.
Proof.
  intros Hc. unfold createCmsEntry. rewrite (resolve_own _ _ _ Hc).
  run_call. cbn [fault alone interfere slug_of slug_text default].
  unfold where_only. rewrite findFirst_first.
  cbn [forallb defined_cond andb]. rewrite matching_collection_slug.
  fold (holders (coll_slug collection) (cc_slug p) db).
  destruct (head (holders _ _ _)) as [e|] eqn:Hh; [reflexivity|].
  apply holders_head_None in Hh.
  cbn [fmap option_fmap option_map]. run_call. cbn [fault alone interfere gen_id clock].
  fold (values_of collection p). rewrite (insertEntry_free _ _ _ _ _ Hh).
  reflexivity.
Qed.

(** Without a collection of the registry createCmsEntry fails and leaves the
    tables alone. *)
Lemma createCmsEntry_needs_collection (cfg : CmsConfig) (ids : nat → string)
    (clk : nat → Timestamp) (n : nat) (p : CreateCmsEntryParams) (db : Db) :
  collections cfg !! cc_collectionSlug p = None →
  ∃ err,
    outcome (run (alone ids clk) n (createCmsEntry cfg p) db) = Err err ∧
    final (run (alone ids clk) n (createCmsEntry cfg p) db) = db.
Proof.
  intros Hc. unfold createCmsEntry.
  destruct (resolve_not_own _ _ Hc) as [-> | ->]; [by eexists|].
  run_call. cbn [fault alone interfere]. by eexists.
Qed.

Ltac no_collection Hc Hok :=
  match type of Hok with
  | outcome (run (alone ?ids ?clk) ?n (createCmsEntry ?cfg ?p) ?db) = _ =>
      let err := fresh "err" in
      let Herr := fresh "Herr" in
      destruct (createCmsEntry_needs_collection cfg ids clk n p db Hc)
        as (err & Herr & _);
      rewrite Herr in Hok; discriminate Hok
  end.

Lemma holders_after_insert (coll slug : string) (db : Db) (row : CmsEntry) :
  entry_collection row = coll → entry_slug row = slug →
  holders coll slug (with_entries db (cmsEntryTable db ++ [row])) =
  holders coll slug db ++ [row].
Proof.
  intros Hc Hs. unfold holders. simpl. rewrite filter_app.
  by rewrite filter_cons_True, filter_nil.
Qed.




(** A run of getCmsEntry by a request that is alone. *)
Lemma getCmsEntry_alone (cfg : CmsConfig) (ids : nat → string)
    (clk : nat → Timestamp) (n : nat) (p : GetCmsEntryParams) (db : Db)
    (collection : CmsCollection) :
  collections cfg !! ge_collectionSlug p = Some collection →
  run (alone ids clk) n (getCmsEntry cfg p) db =
  let found :=
    load_relations (buildCmsRelationsQuery (ge_includeRelations p)) db <$>
    head (matching ([EqCollection (Some (coll_slug collection)); EqSlug (ge_slug p)]
                      ++ status_filter (default (Stored PUBLISHED) (ge_status p))) db) in
  mkRun (Ok found) db [EvFindFirst found].
Proof.
  intros Hc. unfold getCmsEntry. rewrite (resolve_own _ _ _ Hc).
  run_call. cbn [fault alone interfere slug_of].
  rewrite findFirst_first, entry_conds_defined. reflexivity.
Qed.

Lemma matching_entry_all (coll slug : string) (db : Db) :
  matching ([EqCollection (Some coll); EqSlug slug] ++ status_filter All) db =
  holders coll slug db.
Proof.
  rewrite matching_entry. unfold holders. apply list_filter_iff.
  intros e. split.
  - intros (Hc & Hs & _). done.
  - intros [Hc Hs]. auto.
Qed.

(** C8. After a createCmsEntry that succeeds, getCmsEntry for the same
    collection and slug with status 'all' returns the row that was created:
    its collection is the resolved collection's slug, and its slug, title,
    content, fields and status (draft when none was supplied) are the ones
    that were passed in. *)
Theorem create_then_get_round_trip
    (cfg : CmsConfig) (ids ids' : nat → string) (clk clk' : nat → Timestamp)
    (n m : nat) (p : CreateCmsEntryParams)
    (includeRelations : option CmsIncludeRelations) (db : Db) (row : CmsEntry) :
  outcome (run (alone ids clk) n (createCmsEntry cfg p) db) = Ok row →
  let db' := final (run (alone ids clk) n (createCmsEntry cfg p) db) in
  let q := {| ge_collectionSlug := cc_collectionSlug p;
              ge_slug := cc_slug p;
              ge_status := Some All;
              ge_includeRelations := includeRelations |} in
  ∃ collection x,
    collections cfg !! cc_collectionSlug p = Some collection ∧
    outcome (run (alone ids' clk') m (getCmsEntry cfg q) db') = Ok (Some x) ∧
    res_entry x = row ∧
    entry_collection (res_entry x) = coll_slug collection ∧
    entry_slug (res_entry x) = cc_slug p ∧
    entry_title (res_entry x) = cc_title p ∧
    entry_content (res_entry x) = cc_content p ∧
    entry_fields (res_entry x) = cc_fields p ∧
    entry_status (res_entry x) = default DRAFT (cc_status p).
Proof.
  intros Hok db' q. subst db'.
  destruct (collections cfg !! cc_collectionSlug p) as [collection|] eqn:Hc;
    [|no_collection Hc Hok].
  rewrite (createCmsEntry_alone _ _ _ _ _ _ _ Hc) in Hok |- *.
  destruct (head (holders _ _ _)) as [e|] eqn:Hh; [done|].
  apply holders_head_None in Hh. simpl in Hok. injection Hok as <-.
  exists collection. eexists. split; [done|].
  rewrite (getCmsEntry_alone _ _ _ _ q _ collection Hc).
  subst q. cbn [ge_status ge_slug ge_includeRelations default outcome final].
  rewrite matching_entry_all, holders_after_insert, Hh by done.
  simpl. done.
Qed.

(** The hello-world scenario read back. *)
Lemma create_then_get_round_trip_witness :
  ∃ x,
    outcome (run (alone ids0 clock0) 0
               (getCmsEntry cmsConfig
                  {| ge_collectionSlug := "blog"; ge_slug := "hello-world";
                     ge_status := Some All; ge_includeRelations := None |})
               (final (run (alone ids0 clock0) 0
                         (createCmsEntry cmsConfig helloWorld) emptyDb)))
      = Ok (Some x) ∧
    res_entry x = helloEntry.
Proof.
  destruct (create_then_get_round_trip cmsConfig ids0 ids0 clock0 clock0 0 0
              helloWorld None emptyDb helloEntry eq_refl)
    as (collection & x & _ & Hget & Hrow & _).
  exists x. split; [exact Hget | exact Hrow].
Defined.

(** ** updateCmsEntry *)

Lemma updated_rows_hits (now : Timestamp) (s : SetValues) (i : string) (db : Db) :
  filter (λ e, entry_id e = i) (updated_rows now s i db) =
  map (apply_set now s) (filter (λ e, entry_id e = i) (cmsEntryTable db)).
Proof.
  unfold updated_rows.
  induction (cmsEntryTable db) as [|e l IH]; [done|].
  rewrite map_cons, !filter_cons.
  destruct (decide (entry_id e = i)) as [He|He].
  - rewrite bool_decide_eq_true_2 by done.
    rewrite decide_True by done. rewrite map_cons. by f_equal.
  - rewrite bool_decide_eq_false_2 by done.
    rewrite decide_False by done. done.
Qed.

Lemma updated_rows_head (now : Timestamp) (s : SetValues) (i : string) (db : Db) :
  head (filter (λ e, entry_id e = i) (updated_rows now s i db)) =
  apply_set now s <$> head (filter (λ e, entry_id e = i) (cmsEntryTable db)).
Proof. rewrite updated_rows_hits. by destruct (filter _ _). Qed.

Lemma updated_rows_lookup (now : Timestamp) (s : SetValues) (i : string)
    (db : Db) (k : nat) :
  updated_rows now s i db !! k =
  (λ e, if bool_decide (entry_id e = i) then apply_set now s e else e)
    <$> cmsEntryTable db !! k.
Proof. unfold updated_rows. apply list_lookup_fmap. Qed.

Lemma updated_rows_keeps {B} (f : CmsEntry → B) (now : Timestamp)
    (s : SetValues) (i : string) (db : Db) :
  (∀ e, f (apply_set now s e) = f e) →
  map f (updated_rows now s i db) = map f (cmsEntryTable db).
Proof.
  intros Hf. unfold updated_rows.
  induction (cmsEntryTable db) as [|e l IH]; [done|].
  rewrite !map_cons, IH. f_equal. destruct (bool_decide _); [apply Hf | done].
Qed.

Lemma slug_is_changing_true (p : UpdateCmsEntryParams) (e : CmsEntry) :
  slug_is_changing p e = true →
  ∃ s, up_slug p = Some s ∧ s ≠ "" ∧ s ≠ entry_slug e.
Proof.
  unfold slug_is_changing. destruct (up_slug p) as [s|]; [|done].
  simpl. intros [Hs He]%andb_true_iff.
  apply negb_true_iff, bool_decide_eq_false in Hs.
  apply negb_true_iff, bool_decide_eq_false in He.
  exists s. split; [done|]. split; [done|]. intros ->. done.
Qed.

Lemma slug_is_changing_supplied (p : UpdateCmsEntryParams) (e : CmsEntry) :
  slug_is_changing p e = true → nothing_supplied p = false.
Proof.
  intros (s & Hs & _)%slug_is_changing_true. unfold nothing_supplied. by rewrite Hs.
Qed.

(** An update that re-supplies the entry's own slug, or no slug, is not
    checked for conflicts. *)
Lemma slug_is_changing_own (p : UpdateCmsEntryParams) (e : CmsEntry) :
  up_slug p = None ∨ up_slug p = Some (entry_slug e) →
  slug_is_changing p e = false.
Proof.
  unfold slug_is_changing. intros [->| ->]; [done|].
  rewrite bool_decide_eq_true_2 by done. apply andb_false_r.
Qed.

(** Neither is an update that supplies the empty string. *)
Lemma slug_is_changing_empty (p : UpdateCmsEntryParams) (e : CmsEntry) :
  up_slug p = Some "" → slug_is_changing p e = false.
Proof. unfold slug_is_changing. by intros ->. Qed.

Lemma slug_is_changing_false (p : UpdateCmsEntryParams) (e : CmsEntry) :
  slug_is_changing p e = false →
  up_slug p = None ∨ up_slug p = Some (entry_slug e) ∨ up_slug p = Some "".
Proof.
  unfold slug_is_changing. destruct (up_slug p) as [s|]; [|by left].
  simpl. destruct (decide (s = "")) as [->|Hs]; [by auto|].
  rewrite (bool_decide_eq_false_2 _ Hs). simpl.
  intros H. apply negb_false_iff, bool_decide_eq_true in H. auto.
Qed.

(** The run of the update statement by a request that is alone. *)
Lemma update_statement_alone (ids : nat → string) (clk : nat → Timestamp) (k : nat)
    (p : UpdateCmsEntryParams) (db : Db) :
  let r := run (alone ids clk) k (update_statement p) db in
  if nothing_supplied p then
    outcome r = Err NoValuesToSet ∧ final r = db ∧ trace r = []
  else
    let rows := updated_rows (clk k) (set_of p) (up_id p) db in
    if bool_decide (NoDup (map slug_key rows)) then
      outcome r = Ok (head (filter (λ x, entry_id x = up_id p) rows)) ∧
      final r = with_entries db rows ∧
      trace r = [EvUpdate (filter (λ x, entry_id x = up_id p) rows)]
    else
      outcome r = Err UniqueConstraintViolation ∧ final r = db ∧
      trace r = [EvRefused UniqueConstraintViolation].
Proof.
  intros r. subst r. unfold update_statement.
  destruct (nothing_supplied p); [done|].
  run_call. cbn [fault alone interfere clock]. unfold updateEntries.
  destruct (bool_decide (NoDup _)); done.
Qed.

(** A run of updateCmsEntry by a request that is alone. *)
Lemma updateCmsEntry_alone (ids : nat → string) (clk : nat → Timestamp) (n : nat)
    (p : UpdateCmsEntryParams) (db : Db) :
  let r := run (alone ids clk) n (updateCmsEntry p) db in
  match head (filter (λ e, entry_id e = up_id p) (cmsEntryTable db)) with
  | None => outcome r = Err (EntryNotFound (up_id p)) ∧ final r = db
  | Some e =>
      if slug_is_changing p e
           && bool_decide (holders (entry_collection e) (default "" (up_slug p)) db ≠ [])
      then outcome r = Err (DuplicateSlug (default "" (up_slug p)) (entry_collection e))
           ∧ final r = db
      else if nothing_supplied p
      then outcome r = Err NoValuesToSet ∧ final r = db
      else
        let rows := updated_rows (clk (update_call n p e)) (set_of p) (up_id p) db in
        if bool_decide (NoDup (map slug_key rows))
        then outcome r = Ok (head (filter (λ x, entry_id x = up_id p) rows))
             ∧ final r = with_entries db rows
        else outcome r = Err UniqueConstraintViolation ∧ final r = db
  end.
Proof.
  intros r. subst r. unfold updateCmsEntry. run_call.
  cbn [fault alone interfere]. unfold where_only.
  rewrite findFirst_first. cbn [forallb defined_cond andb]. rewrite matching_id.
  destruct (head (filter _ _)) as [e|]; [|split; reflexivity].
  cbn [fmap option_fmap option_map]. run_call.
  change (res_entry (load_relations no_relations db e)) with e.
  unfold update_call.
  destruct (slug_is_changing p e); cbn [andb].
  - run_call. cbn [fault alone interfere].
    rewrite findFirst_first. cbn [forallb defined_cond andb].
    rewrite matching_collection_slug.
    fold (holders (entry_collection e) (default "" (up_slug p)) db).
    destruct (holders _ _ _) as [|c l] eqn:Hh.
    + rewrite bool_decide_eq_false_2 by (intros ?; done).
      cbn [head fmap option_fmap option_map]. run_call.
      pose proof (update_statement_alone ids clk (S (S n)) p db) as Hu.
      cbv zeta in Hu. destruct (nothing_supplied p); [tauto|].
      destruct (bool_decide (NoDup _)); tauto.
    + rewrite bool_decide_eq_true_2 by done. done.
  - pose proof (update_statement_alone ids clk (S n) p db) as Hu.
    cbv zeta in Hu. destruct (nothing_supplied p); [tauto|].
    destruct (bool_decide (NoDup _)); tauto.
Qed.

Lemma NoDup_fmap_eq {A B} (f : A → B) (l : list A) (x y : A) :
  NoDup (map f l) → x ∈ l → y ∈ l → f x = f y → x = y.
Proof.
  induction l as [|a l IH]; intros Hnd Hx Hy Hf.
  - by apply not_elem_of_nil in Hx.
  - rewrite map_cons in Hnd. apply NoDup_cons in Hnd as [Ha Hnd].
    apply elem_of_cons in Hx as [->|Hx]; apply elem_of_cons in Hy as [->|Hy].
    + done.
    + destruct Ha. rewrite Hf. apply list_elem_of_fmap. eauto.
    + destruct Ha. rewrite <- Hf. apply list_elem_of_fmap. eauto.
    + by apply IH.
Qed.

(** Rewriting the rows with id [i], of which there is at most one, to a key
    that no row holds keeps the keys distinct. *)
Lemma NoDup_keys_rewrite (l : list CmsEntry) (i : string)
    (g : CmsEntry → CmsEntry) (k' : string * string) :
  (∀ x, x ∈ l → entry_id x = i → slug_key (g x) = k') →
  NoDup (map slug_key l) →
  NoDup (map entry_id l) →
  k' ∉ map slug_key l →
  NoDup (map slug_key
           (map (λ x, if bool_decide (entry_id x = i) then g x else x) l)).
Proof.
  induction l as [|a l IH]; intros Hg Hk Hi Hfree; [constructor|].
  rewrite !map_cons in *.
  apply NoDup_cons in Hk as [Hak Hk]. apply NoDup_cons in Hi as [Hai Hi].
  apply not_elem_of_cons in Hfree as [Hne Hfree].
  assert (IH' := IH (λ x Hx, Hg x (list_elem_of_further _ _ _ Hx)) Hk Hi Hfree).
  apply NoDup_cons. split; [|exact IH'].
  intros Hin. apply list_elem_of_fmap in Hin as (y' & Hy' & Hin).
  apply list_elem_of_fmap in Hin as (y & -> & Hy).
  destruct (decide (entry_id a = i)) as [Ha|Ha].
  - rewrite bool_decide_eq_true_2 in Hy' by done.
    rewrite (Hg a) in Hy' by (done || apply list_elem_of_here).
    destruct (decide (entry_id y = i)) as [Hyi|Hyi].
    + destruct Hai. rewrite Ha, <- Hyi. apply list_elem_of_fmap. eauto.
    + rewrite bool_decide_eq_false_2 in Hy' by done.
      destruct Hfree. rewrite Hy'. apply list_elem_of_fmap. eauto.
  - rewrite bool_decide_eq_false_2 in Hy' by done.
    destruct (decide (entry_id y = i)) as [Hyi|Hyi].
    + rewrite bool_decide_eq_true_2 in Hy' by done.
      rewrite (Hg y) in Hy' by (done || by apply list_elem_of_further).
      done.
    + rewrite bool_decide_eq_false_2 in Hy' by done.
      destruct Hak. rewrite Hy'. apply list_elem_of_fmap. eauto.
Qed.

(** On a well-formed store the store accepts an update that leaves the
    entry's slug as it is, or moves the entry to a slug that no row of its
    collection holds. *)
Lemma updated_rows_free (now : Timestamp) (p : UpdateCmsEntryParams) (db : Db)
    (e : CmsEntry) :
  head (filter (λ x, entry_id x = up_id p) (cmsEntryTable db)) = Some e →
  default (entry_slug e) (up_slug p) = entry_slug e ∨
  holders (entry_collection e) (default (entry_slug e) (up_slug p)) db = [] →
  unique_ids db → unique_slugs db →
  NoDup (map slug_key (updated_rows now (set_of p) (up_id p) db)).
Proof.
  intros He Hfree Hids Hu.
  apply head_Some_elem_of, list_elem_of_filter in He as [Hid Hin].
  assert (Hone : ∀ x, x ∈ cmsEntryTable db → entry_id x = up_id p → x = e).
  { intros x Hx Hxi. apply (NoDup_fmap_eq entry_id (cmsEntryTable db)); try done.
    by rewrite Hxi, Hid. }
  destruct Hfree as [Hsame|Hfree].
  - replace (map slug_key (updated_rows now (set_of p) (up_id p) db))
      with (map slug_key (cmsEntryTable db)); [done|].
    unfold updated_rows. rewrite map_map. apply map_ext_in. intros x Hx.
    apply list_elem_of_In in Hx.
    destruct (decide (entry_id x = up_id p)) as [Hxi|Hxi].
    + rewrite bool_decide_eq_true_2 by done. rewrite (Hone x Hx Hxi).
      unfold slug_key, apply_set, set_of. simpl. by rewrite Hsame.
    + by rewrite bool_decide_eq_false_2.
  - unfold updated_rows.
    apply (NoDup_keys_rewrite _ _ _
             (entry_collection e, default (entry_slug e) (up_slug p))); try done.
    + intros x Hx Hxi. by rewrite (Hone x Hx Hxi).
    + by apply holders_nil_key, Hfree.
Qed.

(** In particular it accepts an update that has passed the conflict check,
    unless that update moves the entry to the empty slug. *)
Lemma updated_rows_unique (now : Timestamp) (p : UpdateCmsEntryParams) (db : Db)
    (e : CmsEntry) :
  head (filter (λ x, entry_id x = up_id p) (cmsEntryTable db)) = Some e →
  (slug_is_changing p e = true →
   holders (entry_collection e) (default "" (up_slug p)) db = []) →
  (up_slug p = Some "" → entry_slug e = "") →
  unique_ids db → unique_slugs db →
  NoDup (map slug_key (updated_rows now (set_of p) (up_id p) db)).
Proof.
  intros He Hfree Hne Hids Hu.
  apply (updated_rows_free _ _ _ e); [done | | done | done].
  destruct (slug_is_changing p e) eqn:Hch.
  - right. specialize (Hfree eq_refl).
    apply slug_is_changing_true in Hch as (s & Hs & _).
    rewrite Hs in Hfree |- *. exact Hfree.
  - left. apply slug_is_changing_false in Hch as [Hs|[Hs|Hs]].
    + by rewrite Hs.
    + by rewrite Hs.
    + rewrite Hs. cbn [default]. symmetry. by apply Hne.
Qed.

(** C7. updateCmsEntry writes the supplied attributes and nothing else.
    When the entry exists and passes the conflict check: if at least one
    attribute is supplied, either the store refuses the update and nothing
    changes, or the call returns the entry with each supplied attribute
    replaced and every other attribute as it was, apart from updatedAt, the
    rows with the given id are rewritten in that way and all other rows and
    all other tables are as they were; on a well-formed store the second
    case is the one that happens.  If no attribute is supplied the query
    builder has nothing to set, the call fails before any update, and every
    attribute of every row, updatedAt included, is as it was. *)
Theorem updateCmsEntry_changes_only_supplied
    (ids : nat → string) (clk : nat → Timestamp) (n : nat)
    (p : UpdateCmsEntryParams) (db : Db) (e : CmsEntry) :
  head (filter (λ x, entry_id x = up_id p) (cmsEntryTable db)) = Some e →
  (slug_is_changing p e = true →
   holders (entry_collection e) (default "" (up_slug p)) db = []) →
  let r := run (alone ids clk) n (updateCmsEntry p) db in
  let t := clk (update_call n p e) in
  (nothing_supplied p = true →
   outcome r = Err NoValuesToSet ∧ final r = db) ∧
  (nothing_supplied p = false →
   (outcome r = Err UniqueConstraintViolation ∧ final r = db) ∨
   ∃ e',
     outcome r = Ok (Some e') ∧
     entry_slug e' = default (entry_slug e) (up_slug p) ∧
     entry_title e' = default (entry_title e) (up_title p) ∧
     entry_content e' = default (entry_content e) (up_content p) ∧
     entry_fields e' = default (entry_fields e) (up_fields p) ∧
     entry_status e' = default (entry_status e) (up_status p) ∧
     entry_id e' = entry_id e ∧
     entry_collection e' = entry_collection e ∧
     entry_createdBy e' = entry_createdBy e ∧
     entry_updatedBy e' = entry_updatedBy e ∧
     entry_createdAt e' = entry_createdAt e ∧
     entry_publishedAt e' = entry_publishedAt e ∧
     entry_updatedAt e' = t ∧
     (∀ k x, cmsEntryTable db !! k = Some x →
        cmsEntryTable (final r) !! k =
        Some (if bool_decide (entry_id x = up_id p)
              then apply_set t (set_of p) x else x)) ∧
     length (cmsEntryTable (final r)) = length (cmsEntryTable db) ∧
     cmsEntryMediaTable (final r) = cmsEntryMediaTable db ∧
     cmsMediaTable (final r) = cmsMediaTable db ∧
     userTable (final r) = userTable db) ∧
  (nothing_supplied p = false → up_slug p ≠ Some "" →
   unique_ids db → unique_slugs db →
   outcome r = Ok (Some (apply_set t (set_of p) e))).
Proof.
  intros He Hfree r t.
  pose proof (updateCmsEntry_alone ids clk n p db) as Hrun.
  cbv zeta in Hrun. fold r in Hrun. rewrite He in Hrun.
  assert (Hgo : slug_is_changing p e
                && bool_decide (holders (entry_collection e) (default "" (up_slug p)) db ≠ [])
                = false).
  { destruct (slug_is_changing p e); [|done].
    rewrite Hfree by done. by rewrite bool_decide_eq_false_2 by (intros ?; done). }
  rewrite Hgo in Hrun. fold t in Hrun.
  destruct (nothing_supplied p).
  { split; [done|]. split; [done|]. done. }
  split; [done|].
  rewrite updated_rows_head, He in Hrun. cbn [fmap option_fmap option_map] in Hrun.
  split.
  - intros _. destruct (bool_decide (NoDup _)); [|by left].
    destruct Hrun as [Hout Hfin]. right.
    exists (apply_set t (set_of p) e). split; [exact Hout|].
    do 12 (split; [reflexivity|]).
    rewrite Hfin. cbn [cmsEntryTable with_entries]. split.
    { intros k x Hk. by rewrite updated_rows_lookup, Hk. }
    split; [apply length_map | done].
  - intros _ Hne Hids Hslugs.
    rewrite bool_decide_eq_true_2 in Hrun
      by (apply (updated_rows_unique _ _ _ e); done).
    exact (proj1 Hrun).
Qed.

(** Retitling the hello-world entry: the title changes, the slug stays. *)
Lemma updateCmsEntry_changes_only_supplied_witness :
  outcome (run (alone ids0 clock0) 0
             (updateCmsEntry (retitle "cms_ent_1" "Hello again")) helloDb)
    = Ok (Some (apply_set (clock0 1) (set_of (retitle "cms_ent_1" "Hello again"))
                  helloEntry)) ∧
  outcome (run (alone ids0 clock0) 0 (updateCmsEntry (touch "cms_ent_1")) helloDb)
    = Err NoValuesToSet.
Proof.
  split.
  - refine (proj2 (proj2 (updateCmsEntry_changes_only_supplied ids0 clock0 0
                            (retitle "cms_ent_1" "Hello again") helloDb helloEntry
                            eq_refl _)) eq_refl _ _ _).
    + simpl. discriminate.
    + discriminate.
    + apply NoDup_singleton.
    + apply NoDup_singleton.
  - refine (proj1 (proj1 (updateCmsEntry_changes_only_supplied ids0 clock0 0
                            (touch "cms_ent_1") helloDb helloEntry eq_refl _)
                     eq_refl)).
    simpl. discriminate.
Defined.

(** C1 (as the code has it). updateCmsEntry has no UpdateRaceLost failure:
    whatever concurrent requests and the store do, it never fails with
    UpdateRaceLost, and a run in which the existence check found the entry
    and the update statement then returned no row ends with the value null
    and no error. *)
Theorem updateCmsEntry_zero_rows_returns_null
    (env : Env) (n : nat) (p : UpdateCmsEntryParams) (db : Db) :
  let r := run env n (updateCmsEntry p) db in
  outcome r ≠ Err UpdateRaceLost ∧
  (∀ found,
     head (trace r) = Some (EvFindFirst (Some found)) →
     last (trace r) = Some (EvUpdate []) →
     outcome r = Ok None).
Proof.
  intros r. subst r. unfold updateCmsEntry. run_call.
  destruct (fault env n); [split; [done|]; intros found [=]|].
  destruct (findFirst _ _) as [[existing|]|]; run_call;
    [|split; [done|]; intros found [=] ..].
  assert (Hupd : ∀ k db0 ev,
            let r := run env k (update_statement p) db0 in
            (∃ f, last ev = Some (EvFindFirst f)) →
            outcome r ≠ Err UpdateRaceLost ∧
            (last (ev ++ trace r) = Some (EvUpdate []) → outcome r = Ok None)).
  { intros k db0 ev r [f Hf]. subst r. unfold update_statement.
    destruct (nothing_supplied p).
    { cbn. split; [done|]. rewrite app_nil_r, Hf. intros [=]. }
    run_call. destruct (fault env k).
    - run_call. split; [done|]. rewrite last_snoc. intros [=].
    - unfold updateEntries. destruct (bool_decide (NoDup _)).
      + run_call. split; [done|]. rewrite last_snoc.
        destruct (filter _ _) as [|x l]; [done|]. intros [=].
      + run_call. split; [done|]. rewrite last_snoc. intros [=]. }
  destruct (slug_is_changing p (res_entry existing)).
  - run_call. destruct (fault env (S n)).
    { split; [done|]. intros found _ [=]. }
    destruct (findFirst _ _) as [[conflict|]|]; run_call.
    { split; [done|]. intros found _ [=]. }
    2:{ split; [done|]. intros found _ [=]. }
    match goal with
    | |- context [run env (S (S n)) (update_statement p) ?d] =>
        destruct (Hupd (S (S n)) d [EvFindFirst (Some existing); EvFindFirst None])
          as [Hnever Hnull]; [by eexists|]
    end.
    split; [exact Hnever|]. intros found _ Hlast. apply Hnull. exact Hlast.
  - match goal with
    | |- context [run env (S n) (update_statement p) ?d] =>
        destruct (Hupd (S n) d [EvFindFirst (Some existing)])
          as [Hnever Hnull]; [by eexists|]
    end.
    split; [exact Hnever|]. intros found _ Hlast. apply Hnull. exact Hlast.
Qed.

(** The race on the hello-world entry: found by the check, deleted by
    another request before the update statement. *)
Lemma updateCmsEntry_zero_rows_returns_null_witness :
  outcome (run (deleted_before 1 "cms_ent_1") 0
             (updateCmsEntry (retitle "cms_ent_1" "Hello again")) helloDb)
    = Ok None.
Proof.
  exact (proj2 (updateCmsEntry_zero_rows_returns_null
                  (deleted_before 1 "cms_ent_1") 0
                  (retitle "cms_ent_1" "Hello again") helloDb)
               (load_relations (buildCmsRelationsQuery None) helloDb helloEntry)
               eq_refl eq_refl).
Defined.

(** C1 (as the spec has it) fails: the check finds the entry, the update
    statement affects no row, and the call returns null instead of failing
    with UpdateRaceLost. *)
Lemma updateCmsEntry_race_is_silent :
  let r := run (deleted_before 1 "cms_ent_1") 0
             (updateCmsEntry (retitle "cms_ent_1" "Hello again")) helloDb in
  trace r = [EvFindFirst (Some {| res_entry := helloEntry;
                                  res_createdByUser := None;
                                  res_entryMedia := None |});
             EvUpdate []] ∧
  outcome r = Ok None ∧
  outcome r ≠ Err UpdateRaceLost.
Proof. vm_compute. repeat split. discriminate. Qed.

(** Every run of updateCmsEntry alone either fails and leaves the tables as
    they were, or rewrites the rows with the given id and returns the first
    of them. *)
Lemma updateCmsEntry_cases (ids : nat → string) (clk : nat → Timestamp) (n : nat)
    (p : UpdateCmsEntryParams) (db : Db) :
  let r := run (alone ids clk) n (updateCmsEntry p) db in
  (∃ err, outcome r = Err err ∧ final r = db) ∨
  (∃ e t,
     head (filter (λ x, entry_id x = up_id p) (cmsEntryTable db)) = Some e ∧
     nothing_supplied p = false ∧
     NoDup (map slug_key (updated_rows t (set_of p) (up_id p) db)) ∧
     outcome r = Ok (Some (apply_set t (set_of p) e)) ∧
     final r = with_entries db (updated_rows t (set_of p) (up_id p) db)).
Proof.
  intros r. pose proof (updateCmsEntry_alone ids clk n p db) as Hrun.
  cbv zeta in Hrun. fold r in Hrun.
  destruct (head (filter _ _)) as [e|] eqn:He; [|left; by eexists].
  destruct (_ && _); [left; by eexists|].
  destruct (nothing_supplied p) eqn:Hn; [left; by eexists|].
  destruct (bool_decide (NoDup _)) eqn:Hnd; [|left; by eexists].
  apply bool_decide_eq_true in Hnd. right.
  rewrite updated_rows_head, He in Hrun.
  exists e, (clk (update_call n p e)). tauto.
Qed.

(** ** deleteCmsEntry *)

Lemma deleteCmsEntry_alone (ids : nat → string) (clk : nat → Timestamp) (n : nat)
    (p : DeleteCmsEntryParams) (db : Db) :
  run (alone ids clk) n (deleteCmsEntry p) db =
  match head (filter (λ e, entry_id e = del_id p) (cmsEntryTable db)) with
  | None => mkRun (Err (EntryNotFound (del_id p))) db [EvFindFirst None]
  | Some e =>
      mkRun (Ok tt) (deleteEntry (del_id p) (deleteEntryMedia (del_id p) db))
            [EvFindFirst (Some (load_relations (no_relations) db e));
             EvDelete; EvDelete]
  end.
Proof.
  unfold deleteCmsEntry. run_call. cbn [fault alone interfere].
  unfold where_only. rewrite findFirst_first. cbn [forallb defined_cond andb].
  rewrite matching_id.
  destruct (head (filter _ _)) as [e|]; reflexivity.
Qed.

Lemma failing_at_other (k n : nat) : n ≠ k → fault (failing_at k) n = false.
Proof. intros H. simpl. by apply bool_decide_eq_false_2. Qed.

Lemma failing_at_same (k : nat) : fault (failing_at k) k = true.
Proof. simpl. by apply bool_decide_eq_true_2. Qed.

(** A run of deleteCmsEntry in which one of the two deletes fails. *)
Lemma deleteCmsEntry_failing (n : nat) (second : bool)
    (p : DeleteCmsEntryParams) (db : Db) (e : CmsEntry) :
  head (filter (λ x, entry_id x = del_id p) (cmsEntryTable db)) = Some e →
  let r := run (failing_at (if second then S (S n) else S n)) n (deleteCmsEntry p) db in
  outcome r = Err StoreFailure ∧
  final r = if second then deleteEntryMedia (del_id p) db else db.
Proof.
  intros He r. subst r. unfold deleteCmsEntry. run_call.
  rewrite failing_at_other by (destruct second; lia).
  simpl interfere. unfold where_only. rewrite findFirst_first.
  cbn [forallb defined_cond andb]. rewrite matching_id, He.
  cbn [fmap option_fmap option_map]. run_call.
  destruct second.
  - rewrite (failing_at_other (S (S n)) (S n)) by lia. run_call.
    rewrite failing_at_same. done.
  - rewrite failing_at_same. done.
Qed.

(** C3 (as the code has it). deleteCmsEntry fails with EntryNotFound, and
    changes nothing, when no row has the id.  Otherwise it issues two
    separate deletes.  When both go through, the entry's media associations
    and the entry row are gone and everything else, the media assets
    included, is as it was.  When the first delete fails, nothing has
    changed.  When the second delete fails, the associations are already
    deleted and the entry row is still there. *)
Theorem deleteCmsEntry_two_steps
    (n : nat) (p : DeleteCmsEntryParams) (db : Db) :
  match head (filter (λ x, entry_id x = del_id p) (cmsEntryTable db)) with
  | None =>
      ∀ ids clk,
        let r := run (alone ids clk) n (deleteCmsEntry p) db in
        outcome r = Err (EntryNotFound (del_id p)) ∧ final r = db
  | Some e =>
      (∀ ids clk,
         let r := run (alone ids clk) n (deleteCmsEntry p) db in
         outcome r = Ok tt ∧
         cmsEntryTable (final r) =
           filter (λ x, entry_id x ≠ del_id p) (cmsEntryTable db) ∧
         cmsEntryMediaTable (final r) =
           filter (λ a, em_entryId a ≠ del_id p) (cmsEntryMediaTable db) ∧
         cmsMediaTable (final r) = cmsMediaTable db ∧
         userTable (final r) = userTable db) ∧
      (let r := run (failing_at (S n)) n (deleteCmsEntry p) db in
       outcome r = Err StoreFailure ∧ final r = db) ∧
      (let r := run (failing_at (S (S n))) n (deleteCmsEntry p) db in
       outcome r = Err StoreFailure ∧
       cmsEntryTable (final r) = cmsEntryTable db ∧
       e ∈ cmsEntryTable (final r) ∧
       cmsEntryMediaTable (final r) =
         filter (λ a, em_entryId a ≠ del_id p) (cmsEntryMediaTable db) ∧
       cmsMediaTable (final r) = cmsMediaTable db ∧
       userTable (final r) = userTable db)
  end.
Proof.
  destruct (head (filter _ _)) as [e|] eqn:He.
  - split; [|split].
    + intros ids clk. rewrite deleteCmsEntry_alone, He. done.
    + apply (deleteCmsEntry_failing n false p db e He).
    + destruct (deleteCmsEntry_failing n true p db e He) as [Hout Hfin].
      cbv zeta. rewrite Hout, Hfin. repeat split; try done.
      simpl. apply head_Some_elem_of in He.
      apply list_elem_of_filter in He. tauto.
  - intros ids clk. rewrite deleteCmsEntry_alone, He. done.
Qed.

(** C3 (as the spec has it) fails: a failure of the second delete leaves the
    entry without its media associations; the first delete is not undone. *)
Lemma deleteCmsEntry_not_atomic :
  let r := run (failing_at 2) 0 (deleteCmsEntry {| del_id := "cms_ent_1" |}) helloDb in
  outcome r = Err StoreFailure ∧
  final r ≠ helloDb ∧
  cmsEntryTable (final r) = [helloEntry] ∧
  cmsEntryMediaTable (final r) = [attach "a4" "cms_ent_9" "m2" (Some 0)].
Proof. vm_compute. repeat split. discriminate. Qed.

(** ** publishedAt *)

(** C2 (as the code has it). The module never writes publishedAt.
    updateCmsEntry, whatever status it sets (a first publication, an
    archival, a re-publication), leaves the publishedAt of every row as it
    was, and the row it returns has the publishedAt the entry had before.
    createCmsEntry stores the new row with publishedAt null, whatever its
    status, and keeps the existing rows; deleteCmsEntry only removes rows. *)
Theorem publishedAt_never_written
    (cfg : CmsConfig) (ids : nat → string) (clk : nat → Timestamp) (n : nat) (db : Db) :
  (∀ p,
     let r := run (alone ids clk) n (updateCmsEntry p) db in
     map entry_publishedAt (cmsEntryTable (final r)) =
       map entry_publishedAt (cmsEntryTable db) ∧
     ∀ e', outcome r = Ok (Some e') →
       ∃ e, e ∈ cmsEntryTable db ∧ entry_id e = up_id p ∧
            entry_status e' = default (entry_status e) (up_status p) ∧
            entry_publishedAt e' = entry_publishedAt e) ∧
  (∀ p,
     let r := run (alone ids clk) n (createCmsEntry cfg p) db in
     (cmsEntryTable (final r) = cmsEntryTable db ∨
      ∃ row, outcome r = Ok row ∧
             cmsEntryTable (final r) = cmsEntryTable db ++ [row]) ∧
     ∀ row, outcome r = Ok row →
       entry_status row = default DRAFT (cc_status p) ∧
       entry_publishedAt row = None) ∧
  (∀ p,
     let r := run (alone ids clk) n (deleteCmsEntry p) db in
     cmsEntryTable (final r) ⊆ cmsEntryTable db).
Proof.
  split; [|split].
  - intros p r.
    destruct (updateCmsEntry_cases ids clk n p db)
      as [(err & Hout & Hfin)|(e & t & He & _ & _ & Hout & Hfin)]; fold r in Hout, Hfin.
    + rewrite Hout, Hfin. done.
    + rewrite Hout, Hfin. split.
      { cbn [cmsEntryTable with_entries]. by apply updated_rows_keeps. }
      intros e' [= <-].
      apply head_Some_elem_of, list_elem_of_filter in He as [Hid Hin].
      exists e. done.
  - intros p r. subst r.
    destruct (collections cfg !! cc_collectionSlug p) as [collection|] eqn:Hc.
    + rewrite (createCmsEntry_alone _ _ _ _ _ _ _ Hc).
      destruct (head (holders _ _ _)).
      * split; [by left | done].
      * split; [right; eexists; done|]. by intros row [= <-].
    + destruct (createCmsEntry_needs_collection cfg ids clk n p db Hc)
        as (err & Hout & Hfin).
      rewrite Hout, Hfin. split; [by left | done].
  - intros p r. subst r. rewrite deleteCmsEntry_alone.
    destruct (head (filter _ _)); [|done].
    simpl. apply list_subseteq_filter.
Qed.

(** Publishing the hello-world draft: the status changes, publishedAt is
    what it was. *)
Lemma publishedAt_never_written_witness :
  ∃ e,
    e ∈ cmsEntryTable helloDb ∧
    entry_status helloEntry = DRAFT ∧
    default (entry_status e) (Some PUBLISHED) = PUBLISHED ∧
    entry_publishedAt e = None.
Proof.
  destruct (proj1 (publishedAt_never_written cmsConfig ids0 clock0 0 helloDb)
              (set_status "cms_ent_1" PUBLISHED)) as [_ Hrow].
  destruct (Hrow (apply_set (clock0 1) (set_of (set_status "cms_ent_1" PUBLISHED))
                    helloEntry) eq_refl)
    as (e & Hin & _ & Hst & Hpub).
  exists e. split; [exact Hin|]. split; [reflexivity|]. split.
  - symmetry. exact Hst.
  - symmetry. exact Hpub.
Defined.

(** C2 (as the spec has it) fails: publishing a draft does not set
    publishedAt. *)
Lemma publish_leaves_publishedAt_null :
  let r := run (alone ids0 clock0) 0
             (updateCmsEntry (set_status "cms_ent_1" PUBLISHED)) helloDb in
  entry_status helloEntry = DRAFT ∧
  ∃ e', outcome r = Ok (Some e') ∧
        entry_status e' = PUBLISHED ∧
        entry_publishedAt e' = None.
Proof. vm_compute. split; [done|]. eexists. repeat split. Qed.

(** ** Uniqueness of (collection, slug) *)

Lemma unique_slugs_keys (db : Db) :
  unique_slugs db ↔ NoDup (map slug_key (cmsEntryTable db)).
Proof. done. Qed.

(** Under sequential execution createCmsEntry keeps (collection, slug)
    unique, whatever the status of the rows. *)
Lemma createCmsEntry_keeps_unique_slugs (cfg : CmsConfig) (ids : nat → string)
    (clk : nat → Timestamp) (n : nat) (p : CreateCmsEntryParams) (db : Db) :
  unique_slugs db →
  unique_slugs (final (run (alone ids clk) n (createCmsEntry cfg p) db)).
Proof.
  intros Hu.
  destruct (collections cfg !! cc_collectionSlug p) as [collection|] eqn:Hc.
  2:{ destruct (createCmsEntry_needs_collection cfg ids clk n p db Hc)
        as (err & _ & Hfin). by rewrite Hfin. }
  rewrite (createCmsEntry_alone _ _ _ _ _ _ _ Hc).
  destruct (head (holders _ _ _)) eqn:Hh; [done|].
  apply holders_head_None, holders_nil_key in Hh.
  apply unique_slugs_keys. apply unique_slugs_keys in Hu.
  cbn [final with_entries cmsEntryTable]. rewrite map_app.
  apply NoDup_app. split; [done|]. split.
  - intros k Hk. cbn. intros Hin. apply list_elem_of_singleton in Hin.
    subst k. done.
  - apply NoDup_singleton.
Qed.

(** Under sequential execution updateCmsEntry keeps (collection, slug)
    unique: the store refuses what the conflict check lets through. *)
Lemma updateCmsEntry_keeps_unique_slugs (ids : nat → string)
    (clk : nat → Timestamp) (n : nat) (p : UpdateCmsEntryParams) (db : Db) :
  unique_slugs db →
  unique_slugs (final (run (alone ids clk) n (updateCmsEntry p) db)).
Proof.
  intros Hu.
  destruct (updateCmsEntry_cases ids clk n p db)
    as [(err & _ & Hfin)|(e & t & _ & _ & Hnd & _ & Hfin)]; rewrite Hfin; done.
Qed.

Lemma deleteCmsEntry_keeps_unique_slugs (ids : nat → string)
    (clk : nat → Timestamp) (n : nat) (p : DeleteCmsEntryParams) (db : Db) :
  unique_slugs db →
  unique_slugs (final (run (alone ids clk) n (deleteCmsEntry p) db)).
Proof.
  intros Hu. rewrite deleteCmsEntry_alone.
  destruct (head (filter _ _)); [|done].
  unfold unique_slugs. cbn [final deleteEntry deleteEntryMedia with_entries
                              with_entryMedia cmsEntryTable].
  unfold unique_slugs in Hu.
  induction (cmsEntryTable db) as [|x l IH]; [constructor|].
  rewrite map_cons in Hu. apply NoDup_cons in Hu as [Hx Hl].
  rewrite filter_cons. destruct (decide _); [|by apply IH].
  rewrite map_cons. apply NoDup_cons. split; [|by apply IH].
  intros Hin. apply Hx. apply list_elem_of_fmap in Hin as (y & -> & Hy).
  apply list_elem_of_filter in Hy as [_ Hy]. apply list_elem_of_fmap. eauto.
Qed.

Lemma updated_rows_elem (now : Timestamp) (s : SetValues) (i : string) (db : Db)
    (x : CmsEntry) :
  x ∈ cmsEntryTable db →
  (if bool_decide (entry_id x = i) then apply_set now s x else x)
    ∈ updated_rows now s i db.
Proof.
  intros Hx. unfold updated_rows.
  apply list_elem_of_fmap. exists x. done.
Qed.

(** A run of updateCmsEntry alone that skips the conflict check. *)
Lemma updateCmsEntry_unchecked (ids : nat → string) (clk : nat → Timestamp)
    (n : nat) (p : UpdateCmsEntryParams) (db : Db) (e : CmsEntry) :
  head (filter (λ x, entry_id x = up_id p) (cmsEntryTable db)) = Some e →
  slug_is_changing p e = false →
  let u := run (alone ids clk) (S n) (update_statement p) db in
  run (alone ids clk) n (updateCmsEntry p) db =
  mkRun (outcome u) (final u)
        (EvFindFirst (Some (load_relations no_relations db e)) :: trace u).
Proof.
  intros He Hch u. subst u. unfold updateCmsEntry. run_call.
  cbn [fault alone interfere]. unfold where_only.
  rewrite findFirst_first. cbn [forallb defined_cond andb]. rewrite matching_id, He.
  cbn [fmap option_fmap option_map]. run_call.
  change (res_entry (load_relations no_relations db e)) with e.
  rewrite Hch. reflexivity.
Qed.

(** C10. Under sequential execution every mutation keeps (collection, slug)
    unique, whatever the status of the rows.  createCmsEntry fails with
    DuplicateSlug, and inserts nothing, when any row of the collection
    holds the slug.  updateCmsEntry fails, and changes nothing, when it is
    asked to move an entry to a slug that another row of the same
    collection holds: with DuplicateSlug from its own check, or, for the
    empty string, which its check takes for no slug, with the store's
    uniqueness violation.  An update that supplies the entry's own slug
    goes through with one lookup by id and the update, and no lookup by
    slug. *)
Theorem mutations_keep_unique_slugs
    (cfg : CmsConfig) (ids : nat → string) (clk : nat → Timestamp) (n : nat)
    (db : Db) :
  unique_slugs db →
  (∀ p, unique_slugs (final (run (alone ids clk) n (createCmsEntry cfg p) db))) ∧
  (∀ p, unique_slugs (final (run (alone ids clk) n (updateCmsEntry p) db))) ∧
  (∀ p, unique_slugs (final (run (alone ids clk) n (deleteCmsEntry p) db))) ∧
  (∀ p collection e,
     collections cfg !! cc_collectionSlug p = Some collection →
     e ∈ cmsEntryTable db →
     entry_collection e = coll_slug collection →
     entry_slug e = cc_slug p →
     let r := run (alone ids clk) n (createCmsEntry cfg p) db in
     outcome r = Err (DuplicateSlug (cc_slug p) (coll_slug collection)) ∧
     final r = db) ∧
  (∀ p e other s,
     head (filter (λ x, entry_id x = up_id p) (cmsEntryTable db)) = Some e →
     up_slug p = Some s →
     other ∈ cmsEntryTable db →
     entry_id other ≠ up_id p →
     entry_collection other = entry_collection e →
     entry_slug other = s →
     let r := run (alone ids clk) n (updateCmsEntry p) db in
     outcome r = Err (if bool_decide (s = "") then UniqueConstraintViolation
                      else DuplicateSlug s (entry_collection e)) ∧
     final r = db) ∧
  (∀ p e,
     unique_ids db →
     head (filter (λ x, entry_id x = up_id p) (cmsEntryTable db)) = Some e →
     up_slug p = Some (entry_slug e) →
     let r := run (alone ids clk) n (updateCmsEntry p) db in
     let e' := apply_set (clk (S n)) (set_of p) e in
     outcome r = Ok (Some e') ∧
     entry_slug e' = entry_slug e ∧
     trace r = [EvFindFirst (Some (load_relations no_relations db e));
                EvUpdate [e']]).
Proof.
  intros Hu.
  split; [intros p; by apply createCmsEntry_keeps_unique_slugs|].
  split; [intros p; by apply updateCmsEntry_keeps_unique_slugs|].
  split; [intros p; by apply deleteCmsEntry_keeps_unique_slugs|].
  split; [|split].
  - intros p collection e Hc Hin Hcoll Hslug r. subst r.
    rewrite (createCmsEntry_alone _ _ _ _ _ _ _ Hc).
    destruct (head (holders _ _ _)) as [h|] eqn:Hh; [done|].
    apply holders_head_None, holders_nil in Hh. destruct Hh. by exists e.
  - intros p e other s He Hs Hin Hid Hcoll Hslug r.
    pose proof (updateCmsEntry_alone ids clk n p db) as Hrun.
    cbv zeta in Hrun. fold r in Hrun. rewrite He in Hrun.
    assert (Hheld : holders (entry_collection e) s db ≠ []).
    { intros Hnil. apply holders_nil in Hnil. apply Hnil. by exists other. }
    assert (Hee := He).
    apply head_Some_elem_of, list_elem_of_filter in Hee as [Heid Hein].
    rewrite Hs in Hrun. cbn [default] in Hrun.
    destruct (decide (s = "")) as [->|Hne].
    + rewrite bool_decide_eq_true_2 by done.
      rewrite (slug_is_changing_empty p e Hs) in Hrun. cbn [andb] in Hrun.
      assert (Hn : nothing_supplied p = false).
      { unfold nothing_supplied. by rewrite Hs. }
      rewrite Hn in Hrun.
      rewrite bool_decide_eq_false_2 in Hrun; [exact Hrun|].
      intros Hnd. apply Hid.
      pose proof (updated_rows_elem (clk (update_call n p e)) (set_of p) (up_id p)
                    db other Hin) as Ho.
      pose proof (updated_rows_elem (clk (update_call n p e)) (set_of p) (up_id p)
                    db e Hein) as Hn'.
      rewrite bool_decide_eq_false_2 in Ho by done.
      rewrite bool_decide_eq_true_2 in Hn' by done.
      assert (Heq : other = apply_set (clk (update_call n p e)) (set_of p) e).
      { apply (NoDup_fmap_eq slug_key _ _ _ Hnd Ho Hn').
        unfold slug_key, apply_set, set_of. simpl. rewrite Hs. simpl.
        by rewrite Hcoll, Hslug. }
      rewrite Heq. exact Heid.
    + rewrite bool_decide_eq_false_2 by done.
      assert (Hch : slug_is_changing p e = true).
      { unfold slug_is_changing. rewrite Hs. simpl.
        rewrite (bool_decide_eq_false_2 _ Hne). simpl.
        apply negb_true_iff, bool_decide_eq_false_2. intros Hse.
        apply Hid. rewrite <- Heid. f_equal.
        apply (NoDup_fmap_eq slug_key (cmsEntryTable db)); try done.
        unfold slug_key. rewrite Hcoll, Hslug. f_equal. congruence. }
      rewrite Hch in Hrun. cbn [andb] in Hrun.
      rewrite bool_decide_eq_true_2 in Hrun by done. exact Hrun.
  - intros p e Hids He Hs r e'.
    assert (Hch : slug_is_changing p e = false)
      by (apply slug_is_changing_own; by right).
    subst r. rewrite (updateCmsEntry_unchecked _ _ _ _ _ _ He Hch).
    pose proof (update_statement_alone ids clk (S n) p db) as Hst.
    cbv zeta in Hst.
    assert (Hn : nothing_supplied p = false).
    { unfold nothing_supplied. by rewrite Hs. }
    rewrite Hn in Hst.
    rewrite bool_decide_eq_true_2 in Hst.
    2:{ apply (updated_rows_unique _ _ _ e); try done.
        - by rewrite Hch.
        - rewrite Hs. by intros [= ->]. }
    destruct Hst as (Hout & _ & Htr).
    cbn [outcome trace]. rewrite Hout, Htr.
    rewrite updated_rows_head, He. cbn [fmap option_fmap option_map].
    split; [done|]. split.
    { unfold e', apply_set, set_of. simpl. by rewrite Hs. }
    f_equal. f_equal. f_equal.
    rewrite updated_rows_hits.
    assert (Hone : filter (λ x, entry_id x = up_id p) (cmsEntryTable db) = [e]).
    { clear -Hids He. unfold unique_ids in Hids.
      induction (cmsEntryTable db) as [|a l IH]; [done|].
      rewrite map_cons in Hids. apply NoDup_cons in Hids as [Ha Hl].
      rewrite filter_cons in He |- *.
      destruct (decide (entry_id a = up_id p)) as [Hai|Hai].
      - injection He as ->. f_equal.
        destruct (filter _ l) as [|b l'] eqn:Hf; [done|].
        assert (Hb : b ∈ filter (λ x, entry_id x = up_id p) l)
          by (rewrite Hf; apply list_elem_of_here).
        apply list_elem_of_filter in Hb as [Hbi Hb].
        destruct Ha. rewrite Hai, <- Hbi. apply list_elem_of_fmap. eauto.
      - by apply IH. }
    by rewrite Hone.
Qed.

(** On the store of the untitled page and the about page, moving the about
    page to the empty slug is refused, and the slugs stay distinct. *)
Lemma mutations_keep_unique_slugs_witness :
  unique_slugs twoPages ∧
  outcome (run (alone ids0 clock0) 0
             (updateCmsEntry (reslug "cms_ent_2" "")) twoPages)
    = Err UniqueConstraintViolation ∧
  final (run (alone ids0 clock0) 0
           (updateCmsEntry (reslug "cms_ent_2" "")) twoPages) = twoPages ∧
  unique_slugs (final (run (alone ids0 clock0) 0
                         (updateCmsEntry (reslug "cms_ent_2" "")) twoPages)).
Proof.
  assert (Hu : unique_slugs twoPages).
  { apply unique_slugs_keys. vm_compute.
    apply NoDup_cons. split; [|apply NoDup_singleton].
    intros H%list_elem_of_singleton. discriminate. }
  destruct (mutations_keep_unique_slugs cmsConfig ids0 clock0 0 twoPages Hu)
    as (_ & Hupd & _ & _ & Hmove & _).
  split; [exact Hu|].
  destruct (Hmove (reslug "cms_ent_2" "")
              (new_row "cms_ent_2" (clock0 1) (values_of blogCollection aboutPage))
              (new_row "cms_ent_1" (clock0 1) (values_of blogCollection untitledPage))
              "" eq_refl eq_refl (list_elem_of_here _ _)) as [Hout Hfin].
  - discriminate.
  - reflexivity.
  - reflexivity.
  - split; [exact Hout|]. split; [exact Hfin|]. apply Hupd.
Defined.

(** ** The scenarios of the spec, through the theorems above *)



(** Deleting the hello-world entry when the second delete fails. *)
Lemma deleteCmsEntry_two_steps_witness :
  let r := run (failing_at 2) 0 (deleteCmsEntry {| del_id := "cms_ent_1" |}) helloDb in
  outcome r = Err StoreFailure ∧
  cmsEntryTable (final r) = cmsEntryTable helloDb ∧
  cmsEntryMediaTable (final r) =
    filter (λ a, em_entryId a ≠ "cms_ent_1") (cmsEntryMediaTable helloDb).
Proof.
  pose proof (deleteCmsEntry_two_steps 0 {| del_id := "cms_ent_1" |} helloDb) as H.
  change (head (filter (λ x, entry_id x = del_id {| del_id := "cms_ent_1" |})
                  (cmsEntryTable helloDb)))
    with (Some helloEntry) in H.
  destruct H as (_ & _ & Hout & Htable & _ & Hmedia & _).
  cbv zeta. split; [exact Hout|]. split; [exact Htable | exact Hmedia].
Defined.

(** * Further properties of the module *)

(** ** Runs of the getters *)

Lemma paginate_none {A} (l : list A) : paginate None None l = Some l.
Proof. reflexivity. Qed.

(** The query of getCmsCollection: filter, order, window, relations. *)
Lemma findMany_collection (collection : CmsCollection) (p : GetCmsCollectionParams)
    (db : Db) :
  findMany (collection_query collection p) db =
  map (load_relations (buildCmsRelationsQuery (gc_includeRelations p)) db) <$>
    paginate (gc_limit p) (gc_offset p)
      (order_entries [DescCreatedAt]
         (matching ([EqCollection (Some (coll_slug collection))]
                      ++ status_filter (default (Stored PUBLISHED) (gc_status p))) db)).
Proof.
  unfold findMany.
  cbn [collection_query find_where find_orderBy find_limit find_offset find_with].
  by rewrite collection_conds_defined.
Qed.

(** A run of getCmsCollection alone, for a collection of the registry. *)
Lemma getCmsCollection_rows (cfg : CmsConfig) (ids : nat → string)
    (clk : nat → Timestamp) (n : nat) (p : GetCmsCollectionParams) (db : Db)
    (collection : CmsCollection) :
  collections cfg !! gc_collectionSlug p = Some collection →
  run (alone ids clk) n (getCmsCollection cfg p) db =
  match findMany (collection_query collection p) db with
  | Some rows => mkRun (Ok rows) db [EvFindMany rows]
  | None => mkRun (Err StoreFailure) db [EvRefused StoreFailure]
  end.
Proof.
  intros Hc.
  apply (getCmsCollection_run cfg (alone ids clk) n p db collection);
    [by apply resolve_own | done].
Qed.

(** For a name that the registry only inherits, the store call fails. *)
Lemma getCmsCollection_inherited (cfg : CmsConfig) (env : Env) (n : nat)
    (p : GetCmsCollectionParams) (db : Db) :
  resolve cfg (gc_collectionSlug p) = Some Inherited →
  outcome (run env n (getCmsCollection cfg p) db) = Err StoreFailure ∧
  final (run env n (getCmsCollection cfg p) db) = interfere env n db.
Proof.
  intros Hc. unfold getCmsCollection. rewrite Hc. run_call.
  destruct (fault env n); done.
Qed.

Lemma getCmsEntry_inherited (cfg : CmsConfig) (env : Env) (n : nat)
    (p : GetCmsEntryParams) (db : Db) :
  resolve cfg (ge_collectionSlug p) = Some Inherited →
  outcome (run env n (getCmsEntry cfg p) db) = Err StoreFailure ∧
  final (run env n (getCmsEntry cfg p) db) = interfere env n db.
Proof.
  intros Hc. unfold getCmsEntry. rewrite Hc. run_call.
  destruct (fault env n); done.
Qed.


(** What getCmsCollection returns, it has read from the store with the
    query of a collection of the registry. *)
Lemma getCmsCollection_Ok (cfg : CmsConfig) (ids : nat → string)
    (clk : nat → Timestamp) (n : nat) (p : GetCmsCollectionParams) (db : Db)
    (rows : list EntryResult) :
  outcome (run (alone ids clk) n (getCmsCollection cfg p) db) = Ok rows →
  ∃ collection,
    collections cfg !! gc_collectionSlug p = Some collection ∧
    findMany (collection_query collection p) db = Some rows.
Proof.
  intros Hok.
  destruct (collections cfg !! gc_collectionSlug p) as [collection|] eqn:Hc.
  - exists collection. split; [done|].
    rewrite (getCmsCollection_rows _ _ _ _ _ _ _ Hc) in Hok.
    destruct (findMany _ _); [|done]. by injection Hok as ->.
  - destruct (resolve_not_own _ _ Hc) as [Hr|Hr].
    + unfold getCmsCollection in Hok. by rewrite Hr in Hok.
    + by rewrite (proj1 (getCmsCollection_inherited _ _ _ _ _ Hr)) in Hok.
Qed.

Lemma head_filter_unique {A B} `{EqDecision B} (f : A → B) (l : list A) (e : A) :
  NoDup (map f l) → e ∈ l →
  head (filter (λ x, f x = f e) l) = Some e.
Proof.
  intros Hnd He.
  destruct (head (filter _ l)) as [x|] eqn:Hx.
  - apply head_Some_elem_of, list_elem_of_filter in Hx as [Hfx Hxl].
    f_equal. by apply (NoDup_fmap_eq f l).
  - apply head_None in Hx.
    assert (Hin : e ∈ filter (λ x, f x = f e) l)
      by (by apply list_elem_of_filter).
    rewrite Hx in Hin. by apply not_elem_of_nil in Hin.
Qed.

(** ** getCmsEntryById *)

(** X1. getCmsEntryById looks at the id only.  Whatever concurrent requests
    did before, when the store call goes through it changes nothing, it
    never fails, it answers with a row of the table that has the id, in
    whatever collection and with whatever status, and it answers null only
    when no row has the id.  When ids are unique the answer is the entry
    with that id. *)
Theorem getCmsEntryById_by_id_only
    (env : Env) (n : nat) (p : GetCmsEntryByIdParams) (db : Db) :
  let r := run env n (getCmsEntryById p) db in
  let db1 := interfere env n db in
  let w := buildCmsRelationsQuery (gi_includeRelations p) in
  if fault env n then outcome r = Err StoreFailure ∧ final r = db1
  else
    final r = db1 ∧
    (∀ err, outcome r ≠ Err err) ∧
    (∀ x, outcome r = Ok (Some x) →
       res_entry x ∈ cmsEntryTable db1 ∧ entry_id (res_entry x) = gi_id p ∧
       x = load_relations w db1 (res_entry x)) ∧
    (outcome r = Ok None ↔ ∀ e, e ∈ cmsEntryTable db1 → entry_id e ≠ gi_id p) ∧
    (∀ e, e ∈ cmsEntryTable db1 → entry_id e = gi_id p →
       ∃ x, outcome r = Ok (Some x)) ∧
    (unique_ids db1 →
     ∀ e, e ∈ cmsEntryTable db1 → entry_id e = gi_id p →
       outcome r = Ok (Some (load_relations w db1 e)))
.
Proof.
  intros r db1 w. subst r. unfold getCmsEntryById. run_call.
  destruct (fault env n); [done|]. fold db1.
  rewrite findFirst_first. cbn [forallb defined_cond andb]. rewrite matching_id.
  run_call. fold w.
  set (hits := filter (λ e, entry_id e = gi_id p) (cmsEntryTable db1)).
  assert (Hhit : ∀ e, e ∈ hits ↔ entry_id e = gi_id p ∧ e ∈ cmsEntryTable db1)
    by (intros e; unfold hits; by rewrite list_elem_of_filter).
  split; [done|]. split; [done|]. split; [|split; [|split]].
  - intros x [= Hx]. destruct (head hits) as [e|] eqn:He; [|done].
    injection Hx as <-. apply head_Some_elem_of, Hhit in He as [Hid Hin].
    simpl. done.
  - split.
    + intros [= Hx] e Hin Hid. destruct (head hits) as [x|] eqn:He; [done|].
      apply head_None in He. assert (e ∈ hits) as Hh by (by apply Hhit).
      rewrite He in Hh. by apply not_elem_of_nil in Hh.
    + intros Hno. destruct (head hits) as [x|] eqn:He; [|done].
      apply head_Some_elem_of, Hhit in He as [Hid Hin]. by destruct (Hno x).
  - intros e Hin Hid. destruct (head hits) as [x|] eqn:He; [by eexists|].
    apply head_None in He. assert (e ∈ hits) as Hh by (by apply Hhit).
    rewrite He in Hh. by apply not_elem_of_nil in Hh.
  - intros Hu e Hin Hid. subst hits. rewrite <- Hid.
    by rewrite (head_filter_unique entry_id _ e Hu Hin).
Qed.

(** The draft hello-world entry is found by id, although the default
    filters of the other getters hide it. *)
Lemma getCmsEntryById_by_id_only_witness :
  outcome (run (alone ids0 clock0) 0 (getCmsEntryById (byId "cms_ent_1")) helloDb)
    = Ok (Some (load_relations (buildCmsRelationsQuery None) helloDb helloEntry)).
Proof.
  pose proof (getCmsEntryById_by_id_only (alone ids0 clock0) 0
                (byId "cms_ent_1") helloDb) as H.
  cbv zeta in H. cbn [fault alone] in H.
  destruct H as (_ & _ & _ & _ & _ & Hunique).
  apply Hunique; [|apply list_elem_of_here|reflexivity].
  apply NoDup_singleton.
Defined.

(** ** updateCmsEntry: rejections and what it never changes *)

(** X2. A request that runs alone gets from updateCmsEntry either the
    updated entry, which has the id that was asked for, or one of four
    failures, and after a failure the tables are as they were.  It fails
    with EntryNotFound exactly when no row has the id.  It fails with
    DuplicateSlug only for a non-empty slug that differs from the entry's
    own and that another row of the entry's collection holds.  It fails
    because there is nothing to set exactly when the entry exists and no
    attribute is supplied.  On a store with unique ids and unique
    (collection, slug) pairs, the store refuses the update only when it
    would move the entry to the empty slug and another row of the
    collection holds the empty slug.  It never answers null. *)
Theorem updateCmsEntry_rejections
    (ids : nat → string) (clk : nat → Timestamp) (n : nat)
    (p : UpdateCmsEntryParams) (db : Db) :
  let r := run (alone ids clk) n (updateCmsEntry p) db in
  let table := cmsEntryTable db in
  (outcome r = Err (EntryNotFound (up_id p)) ↔
   ∀ e, e ∈ table → entry_id e ≠ up_id p) ∧
  (∀ s c, outcome r = Err (DuplicateSlug s c) →
     s ≠ "" ∧ up_slug p = Some s ∧
     ∃ e other,
       head (filter (λ x, entry_id x = up_id p) table) = Some e ∧
       entry_collection e = c ∧ entry_slug e ≠ s ∧
       other ∈ table ∧ entry_collection other = c ∧ entry_slug other = s ∧
       other ≠ e) ∧
  (outcome r = Err NoValuesToSet ↔
   (∃ e, e ∈ table ∧ entry_id e = up_id p) ∧ nothing_supplied p = true) ∧
  (outcome r = Err UniqueConstraintViolation →
   unique_ids db → unique_slugs db →
   up_slug p = Some "" ∧
   ∃ e other,
     head (filter (λ x, entry_id x = up_id p) table) = Some e ∧
     entry_slug e ≠ "" ∧
     other ∈ table ∧ entry_collection other = entry_collection e ∧
     entry_slug other = "" ∧ other ≠ e) ∧
  (∀ err, outcome r = Err err →
     final r = db ∧
     (err = EntryNotFound (up_id p) ∨ (∃ s c, err = DuplicateSlug s c) ∨
      err = NoValuesToSet ∨ err = UniqueConstraintViolation)) ∧
  outcome r ≠ Ok None ∧
  (∀ e', outcome r = Ok (Some e') → entry_id e' = up_id p).
Proof.
  intros r table.
  pose proof (updateCmsEntry_alone ids clk n p db) as Hrun.
  cbv zeta in Hrun. fold r in Hrun. subst table.
  destruct (head (filter _ _)) as [e|] eqn:He.
  2:{ destruct Hrun as [Hout Hfin]. rewrite Hout, Hfin.
      apply head_None in He.
      assert (Hno : ∀ x, x ∈ cmsEntryTable db → entry_id x ≠ up_id p).
      { intros x Hin Hid.
        assert (Hf : x ∈ filter (λ x, entry_id x = up_id p) (cmsEntryTable db))
          by (by apply list_elem_of_filter).
        rewrite He in Hf. by apply not_elem_of_nil in Hf. }
      split; [done|]. split; [done|].
      split; [split; [done | intros [(x & Hx & Hid) _]; by destruct (Hno x)]|].
      split; [done|]. split; [|done].
      intros err [= <-]. split; [done|]. by left. }
  pose proof He as Hin.
  apply head_Some_elem_of, list_elem_of_filter in Hin as [Hid Hin].
  assert (Hfound : ¬ ∀ x, x ∈ cmsEntryTable db → entry_id x ≠ up_id p)
    by (intros Hno; by destruct (Hno e)).
  destruct (slug_is_changing p e
            && bool_decide (holders (entry_collection e) (default "" (up_slug p)) db ≠ []))
    eqn:Hck.
  { apply andb_true_iff in Hck as [Hch Hheld].
    apply bool_decide_eq_true in Hheld.
    destruct (slug_is_changing_true _ _ Hch) as (s & Hs & Hne & Hown).
    rewrite Hs in Hrun, Hheld. change (default "" (Some s)) with s in Hrun, Hheld.
    destruct Hrun as [Hout Hfin]. rewrite Hout, Hfin.
    destruct (holders (entry_collection e) s db) as [|other l] eqn:Hh; [done|].
    assert (Hother : other ∈ holders (entry_collection e) s db)
      by (rewrite Hh; apply list_elem_of_here).
    apply holders_subset in Hother as (Hoin & Hoc & Hos).
    split; [split; [done | intros Hno; by destruct Hfound]|].
    split.
    { intros s' c [= <- <-]. split; [done|]. split; [done|].
      exists e, other. repeat split; try done; congruence. }
    split.
    { split; [done|]. intros [_ Hn].
      by rewrite (slug_is_changing_supplied _ _ Hch) in Hn. }
    split; [done|]. split; [|done].
    intros err [= <-]. split; [done|]. right. left. eauto. }
  assert (Hfree : slug_is_changing p e = true →
                  holders (entry_collection e) (default "" (up_slug p)) db = []).
  { intros Hch. rewrite Hch in Hck. cbn [andb] in Hck.
    apply bool_decide_eq_false in Hck.
    destruct (holders _ _ _); [done|]. by destruct Hck. }
  destruct (nothing_supplied p) eqn:Hn.
  { destruct Hrun as [Hout Hfin]. rewrite Hout, Hfin.
    split; [split; [done | intros Hno; by destruct Hfound]|].
    split; [done|].
    split; [split; [intros _; split; [by exists e | done] | done]|].
    split; [done|]. split; [|done].
    intros err [= <-]. split; [done|]. right. right. by left. }
  destruct (bool_decide (NoDup _)) eqn:Hnd.
  { destruct Hrun as [Hout Hfin]. rewrite Hout, updated_rows_head, He.
    cbn [fmap option_fmap option_map].
    split; [split; [done | intros Hno; by destruct Hfound]|].
    split; [done|]. split; [split; [done | by intros [_ ?]]|].
    split; [done|]. split; [done|]. split; [done|].
    by intros e' [= <-]. }
  apply bool_decide_eq_false in Hnd.
  destruct Hrun as [Hout Hfin]. rewrite Hout, Hfin.
  split; [split; [done | intros Hno; by destruct Hfound]|].
  split; [done|]. split; [split; [done | by intros [_ ?]]|].
  split.
  2:{ split; [|done]. intros err [= <-]. split; [done|]. do 3 right. done. }
  intros _ Hids Hslugs.
  destruct (decide (default (entry_slug e) (up_slug p) = entry_slug e)) as [Hsame|Hmove].
  { destruct Hnd. apply (updated_rows_free _ _ _ e); [done | by left | done | done]. }
  destruct (holders (entry_collection e) (default (entry_slug e) (up_slug p)) db)
    as [|other l] eqn:Hh.
  { destruct Hnd. apply (updated_rows_free _ _ _ e); [done | by right | done | done]. }
  destruct (up_slug p) as [s|] eqn:Hs; [|done].
  change (default (entry_slug e) (Some s)) with s in Hmove, Hh.
  destruct (decide (s = "")) as [->|Hne].
  2:{ assert (Hch : slug_is_changing p e = true).
      { unfold slug_is_changing. rewrite Hs. simpl.
        rewrite (bool_decide_eq_false_2 _ Hne). simpl.
        apply negb_true_iff, bool_decide_eq_false_2. congruence. }
      specialize (Hfree Hch). change (default "" (Some s)) with s in Hfree.
      by rewrite Hfree in Hh. }
  split; [done|].
  assert (Hother : other ∈ holders (entry_collection e) "" db)
    by (rewrite Hh; apply list_elem_of_here).
  apply holders_subset in Hother as (Hoin & Hoc & Hos).
  exists e, other. repeat split; try done; congruence.
Qed.

(** Moving the untitled page onto the slug of the about page is refused by
    the module; moving the about page to the empty slug, by the store. *)
Lemma updateCmsEntry_rejections_witness :
  outcome (run (alone ids0 clock0) 0
             (updateCmsEntry (reslug "cms_ent_1" "about")) twoPages)
    = Err (DuplicateSlug "about" "blog") ∧
  final (run (alone ids0 clock0) 0
           (updateCmsEntry (reslug "cms_ent_1" "about")) twoPages) = twoPages ∧
  outcome (run (alone ids0 clock0) 0
             (updateCmsEntry (reslug "cms_ent_2" "")) twoPages)
    = Err UniqueConstraintViolation ∧
  final (run (alone ids0 clock0) 0
           (updateCmsEntry (reslug "cms_ent_2" "")) twoPages) = twoPages.
Proof.
  pose proof (updateCmsEntry_rejections ids0 clock0 0
                (reslug "cms_ent_1" "about") twoPages) as H.
  cbv zeta in H. destruct H as (_ & _ & _ & _ & Herr & _).
  pose proof (updateCmsEntry_rejections ids0 clock0 0
                (reslug "cms_ent_2" "") twoPages) as H'.
  cbv zeta in H'. destruct H' as (_ & _ & _ & _ & Herr' & _).
  split; [reflexivity|].
  split; [exact (proj1 (Herr (DuplicateSlug "about" "blog") eq_refl))|].
  split; [reflexivity|].
  exact (proj1 (Herr' UniqueConstraintViolation eq_refl)).
Defined.

(** X3. updateCmsEntry never adds or removes a row and never changes the
    id, collection, creator or creation time of any row; the media
    associations, the media assets and the users are as they were. *)
Theorem updateCmsEntry_identity_columns
    (ids : nat → string) (clk : nat → Timestamp) (n : nat)
    (p : UpdateCmsEntryParams) (db : Db) :
  let r := run (alone ids clk) n (updateCmsEntry p) db in
  map entry_id (cmsEntryTable (final r)) = map entry_id (cmsEntryTable db) ∧
  map entry_collection (cmsEntryTable (final r)) = map entry_collection (cmsEntryTable db) ∧
  map entry_createdBy (cmsEntryTable (final r)) = map entry_createdBy (cmsEntryTable db) ∧
  map entry_createdAt (cmsEntryTable (final r)) = map entry_createdAt (cmsEntryTable db) ∧
  map entry_updatedBy (cmsEntryTable (final r)) = map entry_updatedBy (cmsEntryTable db) ∧
  cmsEntryMediaTable (final r) = cmsEntryMediaTable db ∧
  cmsMediaTable (final r) = cmsMediaTable db ∧
  userTable (final r) = userTable db.
Proof.
  intros r.
  destruct (updateCmsEntry_cases ids clk n p db)
    as [(err & _ & Hfin)|(e & t & _ & _ & _ & _ & Hfin)]; fold r in Hfin;
    rewrite Hfin; [done|].
  cbn [cmsEntryTable with_entries]. rewrite !updated_rows_keeps by done. done.
Qed.

(** ** What the mutations keep *)

Lemma NoDup_map_filter {A B} (f : A → B) (P : A → Prop) `{∀ x, Decision (P x)}
    (l : list A) :
  NoDup (map f l) → NoDup (map f (filter P l)).
Proof.
  induction l as [|a l IH]; [done|].
  rewrite map_cons, NoDup_cons. intros [Ha Hl].
  rewrite filter_cons. destruct (decide (P a)); [|by apply IH].
  rewrite map_cons, NoDup_cons. split; [|by apply IH].
  intros Hin. apply Ha.
  apply list_elem_of_fmap in Hin as (y & -> & Hy).
  apply list_elem_of_filter in Hy as [_ Hy]. apply list_elem_of_fmap. eauto.
Qed.

(** Where the tables of a lone updateCmsEntry end up. *)
Lemma updateCmsEntry_final (ids : nat → string) (clk : nat → Timestamp) (n : nat)
    (p : UpdateCmsEntryParams) (db : Db) :
  let r := run (alone ids clk) n (updateCmsEntry p) db in
  map entry_id (cmsEntryTable (final r)) = map entry_id (cmsEntryTable db) ∧
  cmsEntryMediaTable (final r) = cmsEntryMediaTable db.
Proof.
  intros r.
  destruct (updateCmsEntry_cases ids clk n p db)
    as [(err & _ & Hfin)|(e & t & _ & _ & _ & _ & Hfin)]; fold r in Hfin;
    rewrite Hfin; [done|].
  cbn [cmsEntryTable with_entries]. rewrite !updated_rows_keeps by done. done.
Qed.

(** Whether associations are orphans depends on the ids in the table only. *)
Lemma no_orphans_same_ids (db db' : Db) :
  map entry_id (cmsEntryTable db') = map entry_id (cmsEntryTable db) →
  cmsEntryMediaTable db' = cmsEntryMediaTable db →
  no_orphans db → no_orphans db'.
Proof.
  intros Hids Hmedia Hno a Ha. rewrite Hmedia in Ha.
  destruct (Hno a Ha) as (e & He & Hid).
  assert (Hin : entry_id e ∈ map entry_id (cmsEntryTable db'))
    by (rewrite Hids; apply list_elem_of_fmap; eauto).
  apply list_elem_of_fmap in Hin as (e' & He' & Hin').
  exists e'. split; [done|]. congruence.
Qed.

(** A run of createCmsEntry alone appends the row it returns, or leaves the
    tables as they were. *)
Lemma createCmsEntry_cases (cfg : CmsConfig) (ids : nat → string)
    (clk : nat → Timestamp) (n : nat) (p : CreateCmsEntryParams) (db : Db) :
  let r := run (alone ids clk) n (createCmsEntry cfg p) db in
  (∃ err, outcome r = Err err ∧ final r = db) ∨
  (∃ collection,
     collections cfg !! cc_collectionSlug p = Some collection ∧
     holders (coll_slug collection) (cc_slug p) db = [] ∧
     let row := new_row (ids (S n)) (clk (S n)) (values_of collection p) in
     outcome r = Ok row ∧
     final r = with_entries db (cmsEntryTable db ++ [row])).
Proof.
  intros r. subst r.
  destruct (collections cfg !! cc_collectionSlug p) as [collection|] eqn:Hc.
  - rewrite (createCmsEntry_alone _ _ _ _ _ _ _ Hc).
    destruct (head (holders _ _ _)) as [e|] eqn:Hh; [left; by eexists|].
    apply holders_head_None in Hh. right. by exists collection.
  - left. destruct (createCmsEntry_needs_collection cfg ids clk n p db Hc)
      as (err & Hout & Hfin). eauto.
Qed.

(** X4. createCmsEntry, run alone, keeps the store well formed: when ids
    and (collection, slug) pairs are unique and every media association
    belongs to an entry, they still are afterwards, provided the id the
    store generates for the new row is not in use. *)
Theorem createCmsEntry_keeps_wellformed
    (cfg : CmsConfig) (ids : nat → string) (clk : nat → Timestamp) (n : nat)
    (p : CreateCmsEntryParams) (db : Db) :
  ids (S n) ∉ map entry_id (cmsEntryTable db) →
  unique_ids db → unique_slugs db → no_orphans db →
  let r := run (alone ids clk) n (createCmsEntry cfg p) db in
  unique_ids (final r) ∧ unique_slugs (final r) ∧ no_orphans (final r).
Proof.
  intros Hfresh Hids Hslugs Hno r. subst r.
  split; [|split; [by apply createCmsEntry_keeps_unique_slugs|]].
  - destruct (createCmsEntry_cases cfg ids clk n p db)
      as [(err & _ & Hfin)|(collection & _ & _ & _ & Hfin)];
      rewrite Hfin; [done|].
    unfold unique_ids. cbn [with_entries cmsEntryTable].
    rewrite map_app. apply NoDup_app. split; [done|]. split.
    + intros i Hi Hin. apply list_elem_of_singleton in Hin. subst i. done.
    + apply NoDup_singleton.
  - destruct (createCmsEntry_cases cfg ids clk n p db)
      as [(err & _ & Hfin)|(collection & _ & _ & _ & Hfin)];
      rewrite Hfin; [done|].
    intros a Ha. destruct (Hno a Ha) as (e & He & Hid).
    exists e. split; [|done].
    cbn [with_entries cmsEntryTable]. apply elem_of_app. by left.
Qed.

(** A second page on the store that holds the hello-world entry. *)
Lemma tidyDb_wellformed : unique_ids tidyDb ∧ unique_slugs tidyDb ∧ no_orphans tidyDb.
Proof.
  split; [apply NoDup_singleton|]. split; [apply NoDup_singleton|].
  intros a Ha. exists helloEntry. split; [apply list_elem_of_here|].
  simpl in Ha. rewrite !elem_of_cons in Ha.
  destruct Ha as [->|[->|[->|Ha]]]; try reflexivity.
  by apply not_elem_of_nil in Ha.
Defined.

Lemma createCmsEntry_keeps_wellformed_witness :
  let r := run (alone ids1 clock0) 0 (createCmsEntry cmsConfig aboutPage) tidyDb in
  unique_ids (final r) ∧ unique_slugs (final r) ∧ no_orphans (final r).
Proof.
  apply (createCmsEntry_keeps_wellformed cmsConfig ids1 clock0 0 aboutPage tidyDb).
  - simpl. intros H%list_elem_of_singleton. discriminate.
  - exact (proj1 tidyDb_wellformed).
  - exact (proj1 (proj2 tidyDb_wellformed)).
  - exact (proj2 (proj2 tidyDb_wellformed)).
Defined.

(** X5. updateCmsEntry, run alone, keeps the store well formed (unique
    ids, unique (collection, slug) pairs, no orphaned media association) for
    every update except one that supplies the empty string as the slug. *)
Theorem updateCmsEntry_keeps_wellformed
    (ids : nat → string) (clk : nat → Timestamp) (n : nat)
    (p : UpdateCmsEntryParams) (db : Db) :
  up_slug p ≠ Some "" →
  unique_ids db → unique_slugs db → no_orphans db →
  let r := run (alone ids clk) n (updateCmsEntry p) db in
  unique_ids (final r) ∧ unique_slugs (final r) ∧ no_orphans (final r).
Proof.
  intros Hne Hids Hslugs Hno r. subst r.
  destruct (updateCmsEntry_final ids clk n p db) as [Hsame Hmedia].
  split; [|split].
  - unfold unique_ids. by rewrite Hsame.
  - by apply updateCmsEntry_keeps_unique_slugs.
  - by apply (no_orphans_same_ids db).
Qed.

(** Moving the hello-world entry to a free slug. *)
Lemma updateCmsEntry_keeps_wellformed_witness :
  let r := run (alone ids0 clock0) 0
             (updateCmsEntry (reslug "cms_ent_1" "hello")) tidyDb in
  unique_ids (final r) ∧ unique_slugs (final r) ∧ no_orphans (final r).
Proof.
  apply (updateCmsEntry_keeps_wellformed ids0 clock0 0
           (reslug "cms_ent_1" "hello") tidyDb).
  - discriminate.
  - exact (proj1 tidyDb_wellformed).
  - exact (proj1 (proj2 tidyDb_wellformed)).
  - exact (proj2 (proj2 tidyDb_wellformed)).
Defined.

(** X6. deleteCmsEntry, run alone, keeps the store well formed: unique ids
    and unique (collection, slug) pairs stay unique, and when no media
    association was an orphan none is one afterwards, because the
    associations of the deleted entry go with it. *)
Theorem deleteCmsEntry_keeps_wellformed
    (ids : nat → string) (clk : nat → Timestamp) (n : nat)
    (p : DeleteCmsEntryParams) (db : Db) :
  let r := run (alone ids clk) n (deleteCmsEntry p) db in
  (unique_ids db → unique_ids (final r)) ∧
  (unique_slugs db → unique_slugs (final r)) ∧
  (no_orphans db → no_orphans (final r)).
Proof.
  intros r. subst r. rewrite deleteCmsEntry_alone.
  destruct (head (filter _ _)); [|done].
  cbn [final]. unfold unique_ids, unique_slugs.
  cbn [deleteEntry deleteEntryMedia with_entries with_entryMedia cmsEntryTable].
  split; [apply NoDup_map_filter|]. split; [apply NoDup_map_filter|].
  intros Hno a Ha.
  cbn [cmsEntryMediaTable deleteEntry deleteEntryMedia with_entries with_entryMedia] in Ha.
  apply list_elem_of_filter in Ha as [Hne Ha].
  destruct (Hno a Ha) as (e & He & Hid).
  exists e. split; [|done].
  cbn [cmsEntryTable deleteEntry deleteEntryMedia with_entries with_entryMedia].
  apply list_elem_of_filter. split; [congruence | done].
Qed.

(** Deleting the hello-world entry leaves no association behind. *)
Lemma deleteCmsEntry_keeps_wellformed_witness :
  no_orphans (final (run (alone ids0 clock0) 0
                       (deleteCmsEntry {| del_id := "cms_ent_1" |}) tidyDb)).
Proof.
  exact (proj2 (proj2 (deleteCmsEntry_keeps_wellformed ids0 clock0 0
                         {| del_id := "cms_ent_1" |} tidyDb))
               (proj2 (proj2 tidyDb_wellformed))).
Defined.

(** ** How the operations compose *)

Lemma filter_id_deleted (i : string) (l : list CmsEntry) :
  filter (λ e, entry_id e = i) (filter (λ e, entry_id e ≠ i) l) = [].
Proof.
  induction l as [|e l IH]; [done|].
  rewrite (filter_cons (λ e, entry_id e ≠ i)).
  destruct (decide (entry_id e ≠ i)) as [Hne|Heq]; [|done].
  by rewrite filter_cons_False.
Qed.

(** X7. Once a lone deleteCmsEntry has returned, with success or with
    EntryNotFound, the id is gone for good: getCmsEntryById answers null,
    no listing returns a row with the id, no media association refers to
    it, and deleting or updating it again fails with EntryNotFound and
    changes nothing. *)
Theorem deleteCmsEntry_then_absent
    (ids : nat → string) (clk : nat → Timestamp) (n : nat)
    (p : DeleteCmsEntryParams) (db : Db) :
  let db' := final (run (alone ids clk) n (deleteCmsEntry p) db) in
  (outcome (run (alone ids clk) n (deleteCmsEntry p) db) = Ok tt ∨
   outcome (run (alone ids clk) n (deleteCmsEntry p) db) = Err (EntryNotFound (del_id p))) ∧
  (∀ ids' clk' m includeRelations,
     outcome (run (alone ids' clk') m
                (getCmsEntryById {| gi_id := del_id p;
                                    gi_includeRelations := includeRelations |}) db')
       = Ok None) ∧
  (∀ cfg ids' clk' m q rows,
     outcome (run (alone ids' clk') m (getCmsCollection cfg q) db') = Ok rows →
     ∀ x, x ∈ rows → entry_id (res_entry x) ≠ del_id p) ∧
  (outcome (run (alone ids clk) n (deleteCmsEntry p) db) = Ok tt →
   media_of_entry (del_id p) db' = []) ∧
  (∀ ids' clk' m,
     outcome (run (alone ids' clk') m (deleteCmsEntry p) db')
       = Err (EntryNotFound (del_id p)) ∧
     final (run (alone ids' clk') m (deleteCmsEntry p) db') = db') ∧
  (∀ ids' clk' m q, up_id q = del_id p →
     outcome (run (alone ids' clk') m (updateCmsEntry q) db')
       = Err (EntryNotFound (del_id p)) ∧
     final (run (alone ids' clk') m (updateCmsEntry q) db') = db').
Proof.
  intros db'.
  assert (Hgone : filter (λ e, entry_id e = del_id p) (cmsEntryTable db') = []).
  { subst db'. rewrite deleteCmsEntry_alone.
    destruct (head (filter _ _)) eqn:He.
    - cbn [final deleteEntry with_entries cmsEntryTable]. apply filter_id_deleted.
    - by apply head_None in He. }
  split; [|split; [|split; [|split; [|split]]]].
  - rewrite deleteCmsEntry_alone. destruct (head (filter _ _)); auto.
  - intros ids' clk' m inc. rewrite getCmsEntryById_alone.
    cbn [gi_id gi_includeRelations outcome]. by rewrite Hgone.
  - intros cfg ids' clk' m q rows Hrows x Hx Hid.
    apply getCmsCollection_Ok in Hrows as (collection & _ & Hrows).
    destruct (findMany_in_table _ _ _ _ Hrows Hx) as [Hin _].
    assert (Hf : res_entry x ∈ filter (λ e, entry_id e = del_id p) (cmsEntryTable db'))
      by (by apply list_elem_of_filter).
    rewrite Hgone in Hf. by apply not_elem_of_nil in Hf.
  - subst db'. rewrite deleteCmsEntry_alone.
    destruct (head (filter _ _)); [|done]. intros _.
    unfold media_of_entry.
    cbn [final deleteEntry deleteEntryMedia with_entries with_entryMedia
         cmsEntryMediaTable].
    induction (cmsEntryMediaTable db) as [|a l IH]; [done|].
    rewrite (filter_cons (λ a, em_entryId a ≠ del_id p)).
    destruct (decide (em_entryId a ≠ del_id p)); [|done].
    by rewrite filter_cons_False.
  - intros ids' clk' m. rewrite deleteCmsEntry_alone, Hgone. done.
  - intros ids' clk' m q Hq.
    pose proof (updateCmsEntry_alone ids' clk' m q db') as Hrun.
    cbv zeta in Hrun. rewrite Hq, Hgone in Hrun. exact Hrun.
Qed.

(** X8. The entry that a lone updateCmsEntry returns is the one a later
    getCmsEntryById for the same id reads back. *)
Theorem updateCmsEntry_then_getCmsEntryById
    (ids ids' : nat → string) (clk clk' : nat → Timestamp) (n m : nat)
    (p : UpdateCmsEntryParams) (includeRelations : option CmsIncludeRelations)
    (db : Db) (e' : CmsEntry) :
  outcome (run (alone ids clk) n (updateCmsEntry p) db) = Ok (Some e') →
  let db' := final (run (alone ids clk) n (updateCmsEntry p) db) in
  ∃ x,
    outcome (run (alone ids' clk') m
               (getCmsEntryById {| gi_id := up_id p;
                                   gi_includeRelations := includeRelations |}) db')
      = Ok (Some x) ∧
    res_entry x = e'.
Proof.
  intros Hok db'. subst db'.
  destruct (updateCmsEntry_cases ids clk n p db)
    as [(err & Hout & _)|(e & t & He & _ & _ & Hout & Hfin)];
    rewrite Hout in Hok; [done|].
  injection Hok as <-. rewrite Hfin.
  rewrite getCmsEntryById_alone.
  cbn [gi_id gi_includeRelations outcome with_entries cmsEntryTable].
  rewrite updated_rows_head, He. eexists. split; reflexivity.
Qed.

(** Retitling the hello-world entry and reading it back by id. *)
Lemma updateCmsEntry_then_getCmsEntryById_witness :
  ∃ x,
    outcome (run (alone ids0 clock0) 0 (getCmsEntryById (byId "cms_ent_1"))
               (final (run (alone ids0 clock0) 0
                         (updateCmsEntry (retitle "cms_ent_1" "Hello again"))
                         helloDb)))
      = Ok (Some x) ∧
    entry_title (res_entry x) = "Hello again".
Proof.
  destruct (updateCmsEntry_then_getCmsEntryById ids0 ids0 clock0 clock0 0 0
              (retitle "cms_ent_1" "Hello again") None helloDb
              (apply_set (clock0 1) (set_of (retitle "cms_ent_1" "Hello again"))
                 helloEntry) eq_refl)
    as (x & Hget & Hrow).
  exists x. split; [exact Hget|]. rewrite Hrow. reflexivity.
Defined.

(** An unpaginated listing returns all the matching rows, newest first. *)
Lemma whole_listing (collection : CmsCollection) (p : GetCmsCollectionParams)
    (db : Db) :
  gc_limit p = None → gc_offset p = None →
  findMany (collection_query collection p) db =
  Some (map (load_relations (buildCmsRelationsQuery (gc_includeRelations p)) db)
          (order_entries [DescCreatedAt]
             (matching ([EqCollection (Some (coll_slug collection))]
                          ++ status_filter (default (Stored PUBLISHED) (gc_status p)))
                db))).
Proof.
  intros Hl Ho. by rewrite findMany_collection, Hl, Ho, paginate_none.
Qed.

Lemma load_relations_elem (w : Relations) (db : Db) (l : list CmsEntry)
    (e : CmsEntry) :
  load_relations w db e ∈ map (load_relations w db) l ↔ e ∈ l.
Proof.
  split.
  - intros Hin. apply list_elem_of_fmap in Hin as (e0 & Heq & Hin).
    assert (e0 = e) as <- by (by apply (f_equal res_entry) in Heq).
    done.
  - intros Hin. apply list_elem_of_fmap. by exists e.
Qed.

(** X9. After a createCmsEntry that succeeds, the unpaginated listing of
    the collection contains the new row exactly when the requested status is
    'all' or is the status the row was created with.  So the default
    listing, which asks for published rows, shows the new row only if it
    was created as published, and never a row created without a status. *)
Theorem createCmsEntry_then_listed
    (cfg : CmsConfig) (ids ids' : nat → string) (clk clk' : nat → Timestamp)
    (n m : nat) (p : CreateCmsEntryParams) (status : option CmsEntryStatus)
    (includeRelations : option CmsIncludeRelations) (db : Db) (row : CmsEntry) :
  outcome (run (alone ids clk) n (createCmsEntry cfg p) db) = Ok row →
  let db' := final (run (alone ids clk) n (createCmsEntry cfg p) db) in
  let q := {| gc_collectionSlug := cc_collectionSlug p; gc_status := status;
              gc_includeRelations := includeRelations;
              gc_limit := None; gc_offset := None |} in
  ∃ rows,
    outcome (run (alone ids' clk') m (getCmsCollection cfg q) db') = Ok rows ∧
    (row ∈ map res_entry rows ↔
     default (Stored PUBLISHED) status = All ∨
     default (Stored PUBLISHED) status = Stored (default DRAFT (cc_status p))) ∧
    (status = None → cc_status p = None → row ∉ map res_entry rows) ∧
    (status = None → cc_status p = Some PUBLISHED → row ∈ map res_entry rows).
Proof.
  intros Hok db' q. subst db'.
  destruct (createCmsEntry_cases cfg ids clk n p db)
    as [(err & Hout & _)|(collection & Hc & Hh & Hout & Hfin)];
    rewrite Hout in Hok; [done|].
  injection Hok as <-. rewrite Hfin.
  set (row := new_row (ids (S n)) (clk (S n)) (values_of collection p)).
  set (db' := with_entries db (cmsEntryTable db ++ [row])).
  rewrite (getCmsCollection_rows cfg ids' clk' m q db' collection Hc).
  rewrite (whole_listing collection q db' eq_refl eq_refl).
  cbn [outcome]. eexists. split; [reflexivity|].
  assert (Hiff : row ∈ map res_entry
                   (map (load_relations (buildCmsRelationsQuery (gc_includeRelations q)) db')
                      (order_entries [DescCreatedAt]
                         (matching ([EqCollection (Some (coll_slug collection))]
                                      ++ status_filter
                                           (default (Stored PUBLISHED) (gc_status q)))
                            db'))) ↔
                 default (Stored PUBLISHED) status = All ∨
                 default (Stored PUBLISHED) status = Stored (default DRAFT (cc_status p))).
  { rewrite map_res_entry_load, order_desc_perm, matching_collection,
      list_elem_of_filter.
    cbn [q gc_status].
    split; [intros [[_ Hst] _]; exact Hst|].
    intros Hst. split; [split; [reflexivity | exact Hst]|].
    subst db'. cbn [cmsEntryTable with_entries]. apply elem_of_app. right.
    apply list_elem_of_here. }
  split; [exact Hiff|]. split.
  - intros -> Hs. rewrite Hiff, Hs. simpl. intros [|]; done.
  - intros -> Hs. rewrite Hiff, Hs. simpl. by right.
Qed.

(** The hello-world draft is in the 'all' listing of the blog. *)
Lemma createCmsEntry_then_listed_witness :
  ∃ rows,
    outcome (run (alone ids0 clock0) 0
               (getCmsCollection cmsConfig (whole "blog" (Some All)))
               (final (run (alone ids0 clock0) 0
                         (createCmsEntry cmsConfig helloWorld) emptyDb)))
      = Ok rows ∧
    helloEntry ∈ map res_entry rows.
Proof.
  destruct (createCmsEntry_then_listed cmsConfig ids0 ids0 clock0 clock0 0 0
              helloWorld (Some All) None emptyDb helloEntry eq_refl)
    as (rows & Hrows & Hiff & _).
  exists rows. split; [exact Hrows|]. apply Hiff. left. reflexivity.
Defined.

(** X10. getCmsEntry and getCmsCollection agree.  For the same collection,
    status and relations, on the same tables: the entry that getCmsEntry
    returns is one of the rows of the unpaginated listing; when getCmsEntry
    returns null no row of the listing has the slug; and one fails with
    CollectionNotFound exactly when the other does. *)
Theorem getCmsEntry_agrees_with_getCmsCollection
    (cfg : CmsConfig) (ids ids' : nat → string) (clk clk' : nat → Timestamp)
    (n m : nat) (collectionSlug slug : string) (status : option CmsEntryStatus)
    (includeRelations : option CmsIncludeRelations) (db : Db) :
  let r1 := run (alone ids clk) n
              (getCmsEntry cfg {| ge_collectionSlug := collectionSlug;
                                  ge_slug := slug; ge_status := status;
                                  ge_includeRelations := includeRelations |}) db in
  let r2 := run (alone ids' clk') m
              (getCmsCollection cfg {| gc_collectionSlug := collectionSlug;
                                       gc_status := status;
                                       gc_includeRelations := includeRelations;
                                       gc_limit := None; gc_offset := None |}) db in
  (∀ x, outcome r1 = Ok (Some x) →
     ∃ rows, outcome r2 = Ok rows ∧ x ∈ rows ∧ entry_slug (res_entry x) = slug) ∧
  (outcome r1 = Ok None →
     ∃ rows, outcome r2 = Ok rows ∧
             ∀ y, y ∈ rows → entry_slug (res_entry y) ≠ slug) ∧
  (outcome r1 = Err (CollectionNotFound collectionSlug) ↔
   outcome r2 = Err (CollectionNotFound collectionSlug)).
Proof.
  intros r1 r2. subst r1 r2.
  set (q1 := {| ge_collectionSlug := collectionSlug; ge_slug := slug;
                ge_status := status; ge_includeRelations := includeRelations |}).
  set (q2 := {| gc_collectionSlug := collectionSlug; gc_status := status;
                gc_includeRelations := includeRelations;
                gc_limit := None; gc_offset := None |}).
  destruct (collections cfg !! collectionSlug) as [collection|] eqn:Hc.
  - rewrite (getCmsEntry_alone cfg ids clk n q1 db collection Hc).
    rewrite (getCmsCollection_rows cfg ids' clk' m q2 db collection Hc).
    rewrite (whole_listing collection q2 db eq_refl eq_refl).
    subst q1 q2. cbn [outcome ge_slug ge_status ge_includeRelations
                       gc_status gc_includeRelations].
    set (st := default (Stored PUBLISHED) status).
    set (w := buildCmsRelationsQuery includeRelations).
    rewrite matching_entry.
    set (hits := filter _ (cmsEntryTable db)).
    split; [|split; [|done]].
    + intros x [= Hx]. destruct (head hits) as [e|] eqn:He; [|done].
      injection Hx as <-.
      apply head_Some_elem_of in He. unfold hits in He.
      apply list_elem_of_filter in He as [(Hcoll & Hslug & Hst) Hin].
      eexists. split; [reflexivity|]. split; [|done].
      apply load_relations_elem. rewrite order_desc_perm, matching_collection.
      apply list_elem_of_filter. done.
    + intros [= Hx]. destruct (head hits) as [e|] eqn:He; [done|].
      apply head_None in He.
      eexists. split; [reflexivity|]. intros y Hy Hslug.
      apply list_elem_of_fmap in Hy as (e & -> & Hy).
      rewrite order_desc_perm, matching_collection in Hy.
      apply list_elem_of_filter in Hy as [[Hcoll Hst] Hin].
      cbn [load_relations res_entry] in Hslug.
      assert (Hf : e ∈ hits)
        by (unfold hits; apply list_elem_of_filter; done).
      rewrite He in Hf. by apply not_elem_of_nil in Hf.
  - destruct (resolve_not_own _ _ Hc) as [Hr|Hr].
    + unfold getCmsEntry, getCmsCollection. subst q1 q2.
      cbn [ge_collectionSlug gc_collectionSlug]. rewrite Hr. done.
    + rewrite (proj1 (getCmsEntry_inherited cfg (alone ids clk) n q1 db Hr)).
      rewrite (proj1 (getCmsCollection_inherited cfg (alone ids' clk') m q2 db Hr)).
      done.
Qed.

(** ** Pagination *)



(** ** The check-then-insert of createCmsEntry *)

(** X12. The duplicate check and the insert of createCmsEntry are two store
    calls.  When the slug is free at the check and a concurrent request
    inserts a row with the same collection and slug before the insert, the
    check has passed, so the failure is not DuplicateSlug: the store
    refuses the insert with its uniqueness violation, the row of the rival
    is the only one added, and (collection, slug) stays unique. *)
Theorem createCmsEntry_lost_race
    (cfg : CmsConfig) (ids : nat → string) (clk : nat → Timestamp) (n : nat)
    (p : CreateCmsEntryParams) (db : Db) (collection : CmsCollection)
    (rival : CmsEntry) :
  collections cfg !! cc_collectionSlug p = Some collection →
  holders (coll_slug collection) (cc_slug p) db = [] →
  entry_collection rival = coll_slug collection →
  entry_slug rival = cc_slug p →
  let r := run (inserted_before (S n) rival ids clk) n (createCmsEntry cfg p) db in
  outcome r = Err UniqueConstraintViolation ∧
  trace r = [EvFindFirst None; EvRefused UniqueConstraintViolation] ∧
  cmsEntryTable (final r) = cmsEntryTable db ++ [rival] ∧
  (unique_slugs db → unique_slugs (final r)).
Proof.
  intros Hc Hfree Hrc Hrs r. subst r.
  unfold createCmsEntry. rewrite (resolve_own _ _ _ Hc).
  run_call. cbn [fault inserted_before interfere slug_of].
  rewrite (bool_decide_eq_false_2 (n = S n)) by lia.
  unfold where_only. rewrite findFirst_first.
  cbn [forallb defined_cond andb]. rewrite matching_collection_slug.
  fold (holders (coll_slug collection) (cc_slug p) db). rewrite Hfree.
  cbn [head fmap option_fmap option_map]. run_call.
  cbn [fault interfere inserted_before gen_id clock].
  rewrite (bool_decide_eq_true_2 (S n = S n)) by done.
  fold (values_of collection p).
  unfold insertEntry. cbn [values_of iv_collection].
  fold (values_of collection p).
  rewrite bool_decide_eq_true_2.
  2:{ cbn [with_entries cmsEntryTable]. rewrite map_app.
      apply elem_of_app. right. cbn [map]. apply list_elem_of_singleton.
      unfold slug_key. by rewrite Hrc, Hrs. }
  cbn [outcome trace final with_entries cmsEntryTable].
  split; [done|]. split; [done|]. split; [done|].
  intros Hu. unfold unique_slugs. cbn [with_entries cmsEntryTable].
  rewrite map_app. apply NoDup_app. split; [done|]. split.
  - intros key Hkey Hin. apply list_elem_of_singleton in Hin. subst key.
    apply (holders_nil_key _ _ _ Hfree). unfold slug_key in Hkey.
    by rewrite Hrc, Hrs in Hkey.
  - apply NoDup_singleton.
Qed.

(** A rival hello-world page slips in between the check and the insert. *)
Lemma createCmsEntry_lost_race_witness :
  outcome (run (inserted_before 1 helloRival ids0 clock0) 0
             (createCmsEntry cmsConfig helloWorld) emptyDb)
    = Err UniqueConstraintViolation ∧
  cmsEntryTable (final (run (inserted_before 1 helloRival ids0 clock0) 0
                          (createCmsEntry cmsConfig helloWorld) emptyDb))
    = [helloRival].
Proof.
  destruct (createCmsEntry_lost_race cmsConfig ids0 clock0 0 helloWorld emptyDb
              blogCollection helloRival eq_refl eq_refl eq_refl eq_refl)
    as (Hout & _ & Htable & _).
  split; [exact Hout | exact Htable].
Defined.

(** ** The shipped registry *)


(** ** A deleted entry frees its slug *)

(** X14. Deleting the entry that a createCmsEntry has just stored frees its
    slug: the delete succeeds, and a later createCmsEntry for the same
    collection and slug succeeds again. *)
Theorem createCmsEntry_after_delete
    (cfg : CmsConfig) (ids ids' ids'' : nat → string)
    (clk clk' clk'' : nat → Timestamp) (n m k : nat)
    (p p' : CreateCmsEntryParams) (db : Db) (row : CmsEntry) :
  outcome (run (alone ids clk) n (createCmsEntry cfg p) db) = Ok row →
  cc_collectionSlug p' = cc_collectionSlug p →
  cc_slug p' = cc_slug p →
  let db1 := final (run (alone ids clk) n (createCmsEntry cfg p) db) in
  let d := run (alone ids' clk') m (deleteCmsEntry {| del_id := entry_id row |}) db1 in
  outcome d = Ok tt ∧
  ∃ row',
    outcome (run (alone ids'' clk'') k (createCmsEntry cfg p') (final d)) = Ok row' ∧
    entry_slug row' = entry_slug row ∧
    entry_collection row' = entry_collection row.
Proof.
  intros Hok Hp1 Hp2 db1 d. subst d db1.
  destruct (createCmsEntry_cases cfg ids clk n p db)
    as [(err & Hout & _)|(collection & Hc & Hh & Hout & Hfin)];
    rewrite Hout in Hok; [done|].
  injection Hok as Hrow. rewrite Hfin.
  rewrite Hrow.
  set (db1 := with_entries db (cmsEntryTable db ++ [row])).
  rewrite deleteCmsEntry_alone. cbn [del_id].
  assert (Hin : row ∈ filter (λ e, entry_id e = entry_id row) (cmsEntryTable db1)).
  { apply list_elem_of_filter. split; [done|].
    subst db1. cbn [cmsEntryTable with_entries]. apply elem_of_app. right.
    apply list_elem_of_here. }
  destruct (head (filter _ (cmsEntryTable db1))) as [e|] eqn:He.
  2:{ apply head_None in He. rewrite He in Hin. by apply not_elem_of_nil in Hin. }
  cbn [outcome final]. split; [done|].
  assert (Hc' : collections cfg !! cc_collectionSlug p' = Some collection)
    by (by rewrite Hp1).
  rewrite (createCmsEntry_alone _ _ _ _ _ _ _ Hc'), Hp2.
  assert (Hfree : holders (coll_slug collection) (cc_slug p)
                    (deleteEntry (entry_id row)
                       (deleteEntryMedia (entry_id row) db1)) = []).
  { apply holders_nil. intros (x & Hx & Hxc & Hxs).
    cbn [deleteEntry deleteEntryMedia with_entries with_entryMedia cmsEntryTable] in Hx.
    apply list_elem_of_filter in Hx as [Hid Hx].
    subst db1. cbn [cmsEntryTable with_entries] in Hx.
    apply elem_of_app in Hx as [Hx|Hx].
    - apply holders_nil in Hh. apply Hh. eauto.
    - apply list_elem_of_singleton in Hx. by subst x. }
  rewrite Hfree. cbn [head outcome]. eexists. split; [reflexivity|].
  rewrite <- Hrow. cbn [new_row values_of entry_slug entry_collection iv_slug
                         iv_collection]. rewrite Hp2. done.
Qed.

(** The hello-world page created, deleted, and created again. *)
Lemma createCmsEntry_after_delete_witness :
  ∃ row',
    outcome (run (alone ids1 clock0) 0 (createCmsEntry cmsConfig helloWorld)
               (final (run (alone ids0 clock0) 0
                         (deleteCmsEntry {| del_id := "cms_ent_1" |})
                         (final (run (alone ids0 clock0) 0
                                   (createCmsEntry cmsConfig helloWorld) emptyDb)))))
      = Ok row' ∧
    entry_slug row' = "hello-world".
Proof.
  destruct (createCmsEntry_after_delete cmsConfig ids0 ids0 ids1 clock0 clock0 clock0
              0 0 0 helloWorld helloWorld emptyDb helloEntry eq_refl eq_refl eq_refl)
    as (_ & row' & Hout & Hslug & _).
  exists row'. split; [exact Hout | exact Hslug].
Defined.

(** ** Status and public visibility *)

Lemma updateCmsEntry_result_stored (ids : nat → string) (clk : nat → Timestamp)
    (n : nat) (p : UpdateCmsEntryParams) (db : Db) (e' : CmsEntry) :
  outcome (run (alone ids clk) n (updateCmsEntry p) db) = Ok (Some e') →
  e' ∈ cmsEntryTable (final (run (alone ids clk) n (updateCmsEntry p) db)).
Proof.
  intros Hok.
  destruct (updateCmsEntry_cases ids clk n p db)
    as [(err & Hout & _)|(e & t & He & _ & _ & Hout & Hfin)];
    rewrite Hout in Hok; [done|].
  injection Hok as <-. rewrite Hfin. cbn [with_entries cmsEntryTable].
  apply head_Some_elem_of, list_elem_of_filter in He as [Hid Hin].
  pose proof (updated_rows_elem t (set_of p) (up_id p) db e Hin) as Hrow.
  by rewrite bool_decide_eq_true_2 in Hrow.
Qed.

(** X15. The status that updateCmsEntry leaves on an entry decides whether
    the public lookup finds it.  On a store with unique ids and unique
    (collection, slug) pairs, after an update that succeeds (and does not
    supply the empty string as slug), getCmsEntry with the default status
    filter, asked for the entry's collection and slug, returns the updated
    entry if its status is now published, and null if it is draft or
    archived. *)
Theorem updateCmsEntry_status_decides_visibility
    (cfg : CmsConfig) (ids ids' : nat → string) (clk clk' : nat → Timestamp)
    (n m : nat) (p : UpdateCmsEntryParams) (db : Db) (e' : CmsEntry)
    (collectionSlug : string) (collection : CmsCollection)
    (includeRelations : option CmsIncludeRelations) :
  up_slug p ≠ Some "" →
  unique_ids db → unique_slugs db →
  outcome (run (alone ids clk) n (updateCmsEntry p) db) = Ok (Some e') →
  collections cfg !! collectionSlug = Some collection →
  coll_slug collection = entry_collection e' →
  let db' := final (run (alone ids clk) n (updateCmsEntry p) db) in
  let q := {| ge_collectionSlug := collectionSlug; ge_slug := entry_slug e';
              ge_status := None; ge_includeRelations := includeRelations |} in
  outcome (run (alone ids' clk') m (getCmsEntry cfg q) db') =
  Ok (if bool_decide (entry_status e' = PUBLISHED)
      then Some (load_relations (buildCmsRelationsQuery includeRelations) db' e')
      else None).
Proof.
  intros Hne Hids Hslugs Hok Hc Hcoll db' q.
  assert (Hin : e' ∈ cmsEntryTable db') by (by apply updateCmsEntry_result_stored).
  assert (Hu : unique_slugs db') by (by apply updateCmsEntry_keeps_unique_slugs).
  rewrite (getCmsEntry_alone cfg ids' clk' m q db' collection Hc).
  subst q. cbn [outcome ge_slug ge_status ge_includeRelations default].
  rewrite matching_entry.
  set (hits := filter _ (cmsEntryTable db')).
  assert (Hhit : ∀ x, x ∈ hits → x = e' ∧ entry_status e' = PUBLISHED).
  { intros x Hx. unfold hits in Hx.
    apply list_elem_of_filter in Hx as [(Hxc & Hxs & Hst) Hx].
    assert (x = e') as ->.
    { apply (NoDup_fmap_eq slug_key (cmsEntryTable db')); try done.
      unfold slug_key. by rewrite Hxc, Hxs, Hcoll. }
    split; [done|]. destruct Hst as [|[= ->]]; done. }
  destruct (decide (entry_status e' = PUBLISHED)) as [Hpub|Hpub].
  - rewrite bool_decide_eq_true_2 by done.
    assert (He : e' ∈ hits).
    { unfold hits. apply list_elem_of_filter. repeat split; try done.
      right. by rewrite Hpub. }
    destruct (head hits) as [x|] eqn:Hx.
    + apply head_Some_elem_of, Hhit in Hx as [-> _]. done.
    + apply head_None in Hx. rewrite Hx in He. by apply not_elem_of_nil in He.
  - rewrite bool_decide_eq_false_2 by done.
    destruct (head hits) as [x|] eqn:Hx; [|done].
    apply head_Some_elem_of, Hhit in Hx as [_ Hx]. done.
Qed.

(** Publishing the hello-world draft makes the default lookup find it. *)
Lemma updateCmsEntry_status_decides_visibility_witness :
  let db' := final (run (alone ids0 clock0) 0
                      (updateCmsEntry (set_status "cms_ent_1" PUBLISHED)) helloDb) in
  ∃ x,
    outcome (run (alone ids0 clock0) 0 (getCmsEntry cmsConfig (helloQuery None)) db')
      = Ok (Some x) ∧
    entry_status (res_entry x) = PUBLISHED.
Proof.
  cbv zeta. eexists. split.
  - apply (updateCmsEntry_status_decides_visibility cmsConfig ids0 ids0 clock0 clock0
             0 0 (set_status "cms_ent_1" PUBLISHED) helloDb
             (apply_set (clock0 1) (set_of (set_status "cms_ent_1" PUBLISHED)) helloEntry)
             "blog" blogCollection None).
    + discriminate.
    + apply NoDup_singleton.
    + apply NoDup_singleton.
    + reflexivity.
    + reflexivity.
    + reflexivity.
  - reflexivity.
Defined.

(** ** Reading a new entry back by id *)

(** X16. When the id the store generates for the new row is not in use, the
    row that createCmsEntry returns is the one getCmsEntryById reads back
    under that id. *)
Theorem createCmsEntry_then_getCmsEntryById
    (cfg : CmsConfig) (ids ids' : nat → string) (clk clk' : nat → Timestamp)
    (n m : nat) (p : CreateCmsEntryParams)
    (includeRelations : option CmsIncludeRelations) (db : Db) (row : CmsEntry) :
  ids (S n) ∉ map entry_id (cmsEntryTable db) →
  outcome (run (alone ids clk) n (createCmsEntry cfg p) db) = Ok row →
  let db' := final (run (alone ids clk) n (createCmsEntry cfg p) db) in
  entry_id row = ids (S n) ∧
  ∃ x,
    outcome (run (alone ids' clk') m
               (getCmsEntryById {| gi_id := entry_id row;
                                   gi_includeRelations := includeRelations |}) db')
      = Ok (Some x) ∧
    res_entry x = row.
Proof.
  intros Hfresh Hok db'. subst db'.
  destruct (createCmsEntry_cases cfg ids clk n p db)
    as [(err & Hout & _)|(collection & Hc & Hh & Hout & Hfin)];
    rewrite Hout in Hok; [done|].
  injection Hok as Hrow. rewrite Hfin, Hrow.
  assert (Hid : entry_id row = ids (S n)) by (by rewrite <- Hrow).
  split; [exact Hid|].
  rewrite getCmsEntryById_alone.
  cbn [gi_id gi_includeRelations outcome with_entries cmsEntryTable].
  rewrite filter_app.
  assert (Hnone : filter (λ e, entry_id e = entry_id row) (cmsEntryTable db) = []).
  { destruct (filter _ (cmsEntryTable db)) as [|x l] eqn:Hf; [done|].
    assert (Hx : x ∈ x :: l) by apply list_elem_of_here.
    rewrite <- Hf in Hx. apply list_elem_of_filter in Hx as [Hxid Hx].
    destruct Hfresh. rewrite <- Hid, <- Hxid. apply list_elem_of_fmap. eauto. }
  rewrite Hnone, filter_cons_True by done.
  eexists. split; reflexivity.
Qed.

(** The hello-world entry read back by its generated id. *)
Lemma createCmsEntry_then_getCmsEntryById_witness :
  ∃ x,
    outcome (run (alone ids0 clock0) 0 (getCmsEntryById (byId "cms_ent_1"))
               (final (run (alone ids0 clock0) 0
                         (createCmsEntry cmsConfig helloWorld) emptyDb)))
      = Ok (Some x) ∧
    res_entry x = helloEntry.
Proof.
  destruct (createCmsEntry_then_getCmsEntryById cmsConfig ids0 ids0 clock0 clock0 0 0
              helloWorld None emptyDb helloEntry)
    as (_ & x & Hget & Hrow).
  - simpl. apply not_elem_of_nil.
  - reflexivity.
  - exists x. split; [exact Hget | exact Hrow].
Defined.

(** ** Rejections do not write *)

(** X17. Whatever concurrent requests and the store do, a mutation that
    fails one of the module's own checks has written nothing: when
    createCmsEntry fails with CollectionNotFound or DuplicateSlug, when
    updateCmsEntry fails with EntryNotFound or DuplicateSlug, or when
    deleteCmsEntry fails with EntryNotFound, every store call of the run was
    a read.  The three make at most two, three and three store calls. *)
Theorem rejections_do_not_write
    (cfg : CmsConfig) (env : Env) (n : nat) (db : Db) :
  (∀ p,
     let r := run env n (createCmsEntry cfg p) db in
     (length (trace r) ≤ 2)%nat ∧
     ∀ err, outcome r = Err err → is_rejection err → Forall is_read (trace r)) ∧
  (∀ p,
     let r := run env n (updateCmsEntry p) db in
     (length (trace r) ≤ 3)%nat ∧
     ∀ err, outcome r = Err err → is_rejection err → Forall is_read (trace r)) ∧
  (∀ p,
     let r := run env n (deleteCmsEntry p) db in
     (length (trace r) ≤ 3)%nat ∧
     ∀ err, outcome r = Err err → is_rejection err → Forall is_read (trace r)).
Proof.
  split; [|split]; intros p r; subst r.
  - unfold createCmsEntry.
    destruct (resolve cfg (cc_collectionSlug p)) as [collection|].
    2:{ cbn. split; [lia | by constructor]. }
    run_call. destruct (fault env n).
    { cbn. split; [lia|]. by intros err [= <-] []. }
    destruct (findFirst _ _) as [[existing|]|]; run_call.
    { split; [cbn; lia|]. intros err _ _. repeat constructor. }
    2:{ split; [cbn; lia|]. by intros err [= <-] []. }
    destruct (fault env (S n)).
    { cbn. split; [lia|]. by intros err [= <-] []. }
    destruct (insertEntry _ _ _ _) as [row db2|e] eqn:Hins; run_call.
    { split; [cbn; lia|]. intros err [=]. }
    split; [cbn; lia|]. intros err [= <-] Hrej.
    unfold insertEntry in Hins. cbn [iv_collection] in Hins.
    destruct (slug_of collection); [|by injection Hins as <-].
    destruct (bool_decide _); [|done]. by injection Hins as <-.
  - unfold updateCmsEntry, update_statement.
    run_call. destruct (fault env n).
    { cbn. split; [lia|]. by intros err [= <-] []. }
    destruct (findFirst _ _) as [[existing|]|]; run_call.
    2:{ split; [cbn; lia|]. intros err _ _. repeat constructor. }
    2:{ split; [cbn; lia|]. by intros err [= <-] []. }
    assert (Hupd : ∀ k db0,
              let u := run env k
                         (if nothing_supplied p then Throw NoValuesToSet
                          else await updated ← Update (set_of p) (up_id p);
                               Ret (head updated)) db0 in
              (length (trace u) ≤ 1)%nat ∧
              ∀ err, outcome u = Err err → ¬ is_rejection err).
    { intros k db0 u. subst u. destruct (nothing_supplied p).
      { cbn. split; [lia|]. by intros err [= <-] []. }
      run_call. destruct (fault env k).
      { cbn. split; [lia|]. by intros err [= <-] []. }
      unfold updateEntries. destruct (bool_decide (NoDup _)); run_call.
      - split; [cbn; lia|]. intros err [=].
      - split; [cbn; lia|]. by intros err [= <-] []. }
    destruct (slug_is_changing p (res_entry existing)).
    + run_call. destruct (fault env (S n)).
      { cbn. split; [lia|]. by intros err [= <-] []. }
      destruct (findFirst _ _) as [[conflict|]|]; run_call.
      { split; [cbn; lia|]. intros err _ _. repeat constructor. }
      2:{ split; [cbn; lia|]. by intros err [= <-] []. }
      match goal with
      | |- context [run env (S (S n)) ?prog ?d] =>
          destruct (Hupd (S (S n)) d) as [Hlen Herr]
      end.
      split; [cbn [length]; lia|]. intros err Hout Hrej. by destruct (Herr err).
    + match goal with
      | |- context [run env (S n) ?prog ?d] =>
          destruct (Hupd (S n) d) as [Hlen Herr]
      end.
      split; [cbn [length]; lia|]. intros err Hout Hrej. by destruct (Herr err).
  - unfold deleteCmsEntry.
    run_call. destruct (fault env n).
    { cbn. split; [lia|]. by intros err [= <-] []. }
    destruct (findFirst _ _) as [[existing|]|]; run_call.
    2:{ split; [cbn; lia|]. intros err _ _. repeat constructor. }
    2:{ split; [cbn; lia|]. by intros err [= <-] []. }
    destruct (fault env (S n)).
    { cbn. split; [lia|]. by intros err [= <-] []. }
    run_call. destruct (fault env (S (S n))).
    { cbn. split; [lia|]. by intros err [= <-] []. }
    cbn. split; [lia|]. intros err [=].
Qed.

